(** * pacman_k3.py: the game core, embedded and verified

    The Python class [Game] is embedded as a record of the same name, its
    methods as functions on that record.  Methods that only mutate [self]
    become [Game -> Result Game]; an uncaught Python exception is the
    [Raise] outcome.  The calls to [time.time], [random.random] and
    [random.choice] read an environment [Env] of streams, so that every
    theorem holds for all clocks and all random sources.  Python floats are
    the binary64 floats of the Standard Library, Python integers are [Z],
    Python sets of [Point]s are [gset]s. *)

From Stdlib Require Import ZArith List Ascii String Floats Lia Bool.
From stdpp Require Import base option list gmap sets strings.
Set Warnings "-inexact-float,-postfix-notation-not-level-1,-clear-no-such-hyp".
Local Open Scope Z_scope.

(** ** Exceptions *)

(** The two exceptions a method of [Game] can let escape. *)
Inductive exn : Type :=
| AttributeError   (* attribute access on [None] *)
| IndexError.      (* list index out of range, choice from an empty list *)

Inductive Result (A : Type) : Type :=
| Ok (a : A)
| Raise (e : exn).
Arguments Ok {A} a.
Arguments Raise {A} e.

(** Sequencing: [let* x := m in k] runs [k] on the result of [m] unless
    [m] raised. *)
Definition bind {A B : Type} (m : Result A) (k : A -> Result B) : Result B :=
  match m with
  | Ok a => k a
  | Raise e => Raise e
  end.

Notation "'let*' x := m 'in' k" := (bind m (fun x => k))
  (at level 10, x pattern, m at level 100, k at level 200).

(** ** Attribute assignment *)

(** [r <| f := v |>] is [r] after [r.f = v]; [r <| f ::= h |>] is [r]
    after [r.f = h(r.f)]. *)
Class Setter {R E : Type} (getter : R -> E) : Type := set : (E -> E) -> R -> R.
Arguments set {R E} getter {Setter} _ _.

Definition constant {E : Type} (v : E) : E -> E := fun _ => v.
Arguments constant {E} v _ /.

Notation "r <| f := v |>" := (set f (constant v) r)
  (at level 8, f at level 1, v at level 99, left associativity,
   format "r <| f  :=  v |>").
Notation "r <| f ::= h |>" := (set f h r)
  (at level 8, f at level 1, h at level 99, left associativity,
   format "r <| f  ::=  h |>").

(** The setter of the field [getter], from the eta-expansion [eta] of its
    record. *)
Ltac setter eta getter :=
  let e := eval cbv delta [eta] in eta in
  lazymatch eval pattern getter in e with
  | ?F _ =>
      let u := eval cbv beta in (fun update => F (fun r => update (getter r))) in
      exact u
  end.

(** ** Data model *)

(** [Point(y, x)]: equality and hash by value. *)
Abbreviation Point := (Z * Z)%type.

(** class GameObject: position and velocity ([char] is only drawn). *)
Record GameObject : Type := { y : Z; x : Z; dy : Z; dx : Z }.

(** class Ghost(GameObject) *)
Record Ghost : Type := { ghost_base :> GameObject; frightened : bool }.

(** class PacMan(GameObject) *)
Record PacMan : Type := { pacman_base :> GameObject; next_dy : Z; next_dx : Z }.

Definition GameObject_eta (o : GameObject) : GameObject :=
  {| y := y o; x := x o; dy := dy o; dx := dx o |}.
#[global] Instance set_y : Setter y := ltac:(setter GameObject_eta y).
#[global] Instance set_x : Setter x := ltac:(setter GameObject_eta x).
#[global] Instance set_dy : Setter dy := ltac:(setter GameObject_eta dy).
#[global] Instance set_dx : Setter dx := ltac:(setter GameObject_eta dx).

Definition Ghost_eta (o : Ghost) : Ghost :=
  {| ghost_base := ghost_base o; frightened := frightened o |}.
#[global] Instance set_ghost_base : Setter ghost_base := ltac:(setter Ghost_eta ghost_base).
#[global] Instance set_frightened : Setter frightened := ltac:(setter Ghost_eta frightened).

Definition PacMan_eta (o : PacMan) : PacMan :=
  {| pacman_base := pacman_base o; next_dy := next_dy o; next_dx := next_dx o |}.
#[global] Instance set_pacman_base : Setter pacman_base := ltac:(setter PacMan_eta pacman_base).
#[global] Instance set_next_dy : Setter next_dy := ltac:(setter PacMan_eta next_dy).
#[global] Instance set_next_dx : Setter next_dx := ltac:(setter PacMan_eta next_dx).

Definition new_GameObject (y0 x0 : Z) : GameObject :=
  {| y := y0; x := x0; dy := 0; dx := 0 |}.
Definition new_Ghost (y0 x0 : Z) : Ghost :=
  {| ghost_base := new_GameObject y0 x0; frightened := false |}.
Definition new_PacMan (y0 x0 : Z) : PacMan :=
  {| pacman_base := new_GameObject y0 x0; next_dy := 0; next_dx := 0 |}.

Definition pos (o : GameObject) : Point := (y o, x o).

(** [o.y = p.y; o.x = p.x] *)
Definition move_to (p : Point) (o : GameObject) : GameObject :=
  o <| y := p.1 |> <| x := p.2 |>.

(** [o.dy, o.dx = d] *)
Definition set_velocity (d : Z * Z) (o : GameObject) : GameObject :=
  o <| dy := d.1 |> <| dx := d.2 |>.

(** The attributes of [Game] the simulation reads or writes, under their
    source names.  The last three fields are not attributes: they count the
    calls made so far to [time.time], [random.random] and [random.choice],
    that is, how far the environment has been consumed. *)
Record Game : Type := {
  original_map : list (list ascii);
  height : Z;
  width : Z;
  score : Z;
  lives : Z;
  game_over : bool;
  won : bool;
  power_mode_time : float;
  pellets_remaining : Z;
  speed : float;
  level : Z;
  extra_life_awarded : bool;
  fruit_spawn_time : float;
  fruit_active : bool;
  dots_eaten : Z;
  fruit_triggered_70 : bool;
  fruit_triggered_170 : bool;
  pacman : option PacMan;
  ghosts : list Ghost;
  fruit : option Point;
  pellets : gset Point;
  power_pills : gset Point;
  initial_pellets : gset Point;
  initial_power_pills : gset Point;
  initial_fruit : option Point;
  warp_left : option Point;
  warp_right : option Point;
  pacman_start : option Point;
  ghost_starts : list Point;
  prev_pacman_pos : option Point;
  prev_ghost_positions : list (option Point);
  time_calls : nat;
  random_calls : nat;
  choice_calls : nat
}.

Definition Game_eta (g : Game) : Game :=
  {| original_map := original_map g; height := height g; width := width g;
     score := score g; lives := lives g; game_over := game_over g; won := won g;
     power_mode_time := power_mode_time g;
     pellets_remaining := pellets_remaining g; speed := speed g;
     level := level g; extra_life_awarded := extra_life_awarded g;
     fruit_spawn_time := fruit_spawn_time g; fruit_active := fruit_active g;
     dots_eaten := dots_eaten g; fruit_triggered_70 := fruit_triggered_70 g;
     fruit_triggered_170 := fruit_triggered_170 g; pacman := pacman g;
     ghosts := ghosts g; fruit := fruit g; pellets := pellets g;
     power_pills := power_pills g; initial_pellets := initial_pellets g;
     initial_power_pills := initial_power_pills g;
     initial_fruit := initial_fruit g; warp_left := warp_left g;
     warp_right := warp_right g; pacman_start := pacman_start g;
     ghost_starts := ghost_starts g; prev_pacman_pos := prev_pacman_pos g;
     prev_ghost_positions := prev_ghost_positions g; time_calls := time_calls g;
     random_calls := random_calls g; choice_calls := choice_calls g |}.
#[global] Instance set_original_map : Setter original_map := ltac:(setter Game_eta original_map).
#[global] Instance set_score : Setter score := ltac:(setter Game_eta score).
#[global] Instance set_lives : Setter lives := ltac:(setter Game_eta lives).
#[global] Instance set_game_over : Setter game_over := ltac:(setter Game_eta game_over).
#[global] Instance set_won : Setter won := ltac:(setter Game_eta won).
#[global] Instance set_power_mode_time : Setter power_mode_time := ltac:(setter Game_eta power_mode_time).
#[global] Instance set_pellets_remaining : Setter pellets_remaining := ltac:(setter Game_eta pellets_remaining).
#[global] Instance set_speed : Setter speed := ltac:(setter Game_eta speed).
#[global] Instance set_level : Setter level := ltac:(setter Game_eta level).
#[global] Instance set_extra_life_awarded : Setter extra_life_awarded := ltac:(setter Game_eta extra_life_awarded).
#[global] Instance set_fruit_spawn_time : Setter fruit_spawn_time := ltac:(setter Game_eta fruit_spawn_time).
#[global] Instance set_fruit_active : Setter fruit_active := ltac:(setter Game_eta fruit_active).
#[global] Instance set_dots_eaten : Setter dots_eaten := ltac:(setter Game_eta dots_eaten).
#[global] Instance set_fruit_triggered_70 : Setter fruit_triggered_70 := ltac:(setter Game_eta fruit_triggered_70).
#[global] Instance set_fruit_triggered_170 : Setter fruit_triggered_170 := ltac:(setter Game_eta fruit_triggered_170).
#[global] Instance set_pacman : Setter pacman := ltac:(setter Game_eta pacman).
#[global] Instance set_ghosts : Setter ghosts := ltac:(setter Game_eta ghosts).
#[global] Instance set_fruit : Setter fruit := ltac:(setter Game_eta fruit).
#[global] Instance set_pellets : Setter pellets := ltac:(setter Game_eta pellets).
#[global] Instance set_power_pills : Setter power_pills := ltac:(setter Game_eta power_pills).
#[global] Instance set_initial_pellets : Setter initial_pellets := ltac:(setter Game_eta initial_pellets).
#[global] Instance set_initial_power_pills : Setter initial_power_pills := ltac:(setter Game_eta initial_power_pills).
#[global] Instance set_initial_fruit : Setter initial_fruit := ltac:(setter Game_eta initial_fruit).
#[global] Instance set_warp_left : Setter warp_left := ltac:(setter Game_eta warp_left).
#[global] Instance set_warp_right : Setter warp_right := ltac:(setter Game_eta warp_right).
#[global] Instance set_pacman_start : Setter pacman_start := ltac:(setter Game_eta pacman_start).
#[global] Instance set_ghost_starts : Setter ghost_starts := ltac:(setter Game_eta ghost_starts).
#[global] Instance set_prev_pacman_pos : Setter prev_pacman_pos := ltac:(setter Game_eta prev_pacman_pos).
#[global] Instance set_prev_ghost_positions : Setter prev_ghost_positions := ltac:(setter Game_eta prev_ghost_positions).
#[global] Instance set_time_calls : Setter time_calls := ltac:(setter Game_eta time_calls).
#[global] Instance set_random_calls : Setter random_calls := ltac:(setter Game_eta random_calls).
#[global] Instance set_choice_calls : Setter choice_calls := ltac:(setter Game_eta choice_calls).

(** The outside world: the successive results of [time.time()] and
    [random.random()], and the successive integers drawn by
    [random.choice]. *)
Record Env : Type := {
  clock : nat -> float;
  uniform : nat -> float;
  draw : nat -> nat
}.

(** ** Loading and parsing the maze *)

(** [line.rstrip(chars)] *)
Fixpoint rstrip (chars line : list ascii) : list ascii :=
  match line with
  | [] => []
  | c :: rest =>
      match rstrip chars rest with
      | [] => if decide (c ∈ chars) then [] else [c]
      | kept => c :: kept
      end
  end.

Definition len {A : Type} (l : list A) : Z := Z.of_nat (length l).

(** [load_map]: [file] is [None] when opening or reading the maze file
    raises, else the lines [readlines()] returns.  The argument of [rstrip]
    in the source is the two characters backslash and [n].  The result is
    [original_map], [height] and [width]. *)
Definition load_map (file : option (list string)) : list (list ascii) * Z * Z :=
  let lines := match file with Some ls => ls | None => [] end in
  let rows := (fun line => rstrip ["\"; "n"]%char (list_ascii_of_string line)) <$> lines in
  let h := len rows in
  let w := foldl (fun w row => if w <? len row then len row else w) 0 rows in
  let padded := (fun row => row ++ replicate (Z.to_nat (w - len row)) " "%char) <$> rows in
  (padded, h, w).

(** [self.original_map[r][c] = ' '] *)
Definition blank (r c : nat) (m : list (list ascii)) : list (list ascii) :=
  alter (fun row => <[c := " "%char]> row) r m.

(** The body of the two loops of [parse_map] for the cell at row [r],
    column [c] holding [char]. *)
Definition parse_cell (r c : nat) (char : ascii) (g : Game) : Game :=
  let p : Point := (Z.of_nat r, Z.of_nat c) in
  if decide (char = "c"%char) then
    g <| pacman_start := Some p |>
      <| pacman := Some (new_PacMan p.1 p.2) |>
      <| original_map ::= blank r c |>
  else if decide (char = "n"%char) then
    g <| ghost_starts ::= (fun l => l ++ [p]) |>
      <| ghosts ::= (fun l => l ++ [new_Ghost p.1 p.2]) |>
      <| original_map ::= blank r c |>
  else if decide (char = "@"%char) then
    g <| fruit := Some p |>
      <| initial_fruit := Some p |>
      <| original_map ::= blank r c |>
  else if decide (char = "<"%char) then
    g <| warp_left := Some p |> <| original_map ::= blank r c |>
  else if decide (char = ">"%char) then
    g <| warp_right := Some p |> <| original_map ::= blank r c |>
  else if decide (char = "."%char) then
    g <| pellets ::= (fun s => s ∪ {[ p ]}) |>
      <| initial_pellets ::= (fun s => s ∪ {[ p ]}) |>
  else if decide (char = "o"%char) then
    g <| power_pills ::= (fun s => s ∪ {[ p ]}) |>
      <| initial_power_pills ::= (fun s => s ∪ {[ p ]}) |>
  else g.

(** [for x, char in enumerate(row)], from column [c] on. *)
Fixpoint parse_row (r c : nat) (row : list ascii) (g : Game) : Game :=
  match row with
  | [] => g
  | char :: rest => parse_row r (S c) rest (parse_cell r c char g)
  end.

(** [for y, row in enumerate(self.original_map)], from row [r] on. *)
Fixpoint parse_rows (r : nat) (rows : list (list ascii)) (g : Game) : Game :=
  match rows with
  | [] => g
  | row :: rest => parse_rows (S r) rest (parse_row r 0 row g)
  end.

Definition parse_map (g : Game) : Game :=
  let g := parse_rows 0 (original_map g) g in
  g <| pellets_remaining := Z.of_nat (size (pellets g)) + Z.of_nat (size (power_pills g)) |>
    <| prev_ghost_positions := replicate (length (ghosts g)) None |>.

(** [Game.__init__], without the curses set-up. *)
Definition Game_init (file : option (list string)) : Game :=
  let '(m, h, w) := load_map file in
  parse_map
    {| original_map := m; height := h; width := w;
       score := 0; lives := 3; game_over := false; won := false;
       power_mode_time := 0; pellets_remaining := 0; speed := 0.15;
       level := 1; extra_life_awarded := false;
       fruit_spawn_time := 0; fruit_active := false; dots_eaten := 0;
       fruit_triggered_70 := false; fruit_triggered_170 := false;
       pacman := None; ghosts := []; fruit := None;
       pellets := ∅; power_pills := ∅;
       initial_pellets := ∅; initial_power_pills := ∅;
       initial_fruit := None; warp_left := None; warp_right := None;
       pacman_start := None; ghost_starts := [];
       prev_pacman_pos := None; prev_ghost_positions := [];
       time_calls := 0; random_calls := 0; choice_calls := 0 |}.

(** ** World model *)

(** [0 <= y < self.height and 0 <= x < self.width] *)
Definition in_bounds (g : Game) (y0 x0 : Z) : bool :=
  (0 <=? y0) && (y0 <? height g) && (0 <=? x0) && (x0 <? width g).

(** [self.original_map[y][x]] for non-negative indices. *)
Definition map_at (g : Game) (y0 x0 : Z) : Result ascii :=
  match original_map g !! Z.to_nat y0 with
  | None => Raise IndexError
  | Some row =>
      match row !! Z.to_nat x0 with
      | None => Raise IndexError
      | Some c => Ok c
      end
  end.

Definition is_wall (g : Game) (y0 x0 : Z) : Result bool :=
  if in_bounds g y0 x0 then let* c := map_at g y0 x0 in Ok (bool_decide (c = "#"%char))
  else Ok true.

Definition is_valid_move (g : Game) (y0 x0 : Z) : Result bool :=
  if in_bounds g y0 x0 then let* c := map_at g y0 x0 in Ok (bool_decide (c ≠ "#"%char))
  else Ok false.

(** The loop of [get_valid_directions] over the directions [ds]. *)
Fixpoint valid_among (g : Game) (y0 x0 : Z) (ds : list (Z * Z)) : Result (list (Z * Z)) :=
  match ds with
  | [] => Ok []
  | d :: rest =>
      let* ok := is_valid_move g (y0 + d.1) (x0 + d.2) in
      let* directions := valid_among g y0 x0 rest in
      Ok (if ok : bool then d :: directions else directions)
  end.

Definition get_valid_directions (g : Game) (y0 x0 : Z) : Result (list (Z * Z)) :=
  valid_among g y0 x0 [(-1, 0); (1, 0); (0, -1); (0, 1)].

Definition is_junction (g : Game) (y0 x0 : Z) : Result bool :=
  let* directions := get_valid_directions g y0 x0 in Ok (2 <? len directions).

(** The tunnel test that [move_pacman] and [move_ghosts] both make: the
    endpoint an agent at [current_pos] with column velocity [dx0] is
    carried to, if any.  Without both endpoints there is no tunnel. *)
Definition warp_exit (g : Game) (current_pos : Point) (dx0 : Z) : option Point :=
  match warp_left g, warp_right g with
  | Some wl, Some wr =>
      if bool_decide (current_pos = wl) && (dx0 <? 0) then Some wr
      else if bool_decide (current_pos = wr) && (0 <? dx0) then Some wl
      else None
  | _, _ => None
  end.

(** ** The environment *)

Definition time_time (E : Env) (g : Game) : float * Game :=
  (clock E (time_calls g), g <| time_calls ::= S |>).

Definition random_random (E : Env) (g : Game) : float * Game :=
  (uniform E (random_calls g), g <| random_calls ::= S |>).

(** [random.choice(l)]: raises on the empty list. *)
Definition random_choice {A : Type} (E : Env) (l : list A) (g : Game) : Result (A * Game) :=
  match l !! (draw E (choice_calls g) mod length l)%nat with
  | Some a => Ok (a, g <| choice_calls ::= S |>)
  | None => Raise IndexError
  end.

(** ** The player *)

Definition check_extra_life (g : Game) : Game :=
  if negb (extra_life_awarded g) && (10000 <=? score g)
  then g <| lives ::= (fun l => l + 1) |> <| extra_life_awarded := true |>
  else g.

Definition spawn_fruit (E : Env) (g : Game) : Game :=
  match initial_fruit g with
  | Some _ =>
      let g := g <| fruit_active := true |> in
      let '(t, g) := time_time E g in
      g <| fruit_spawn_time := t |>
  | None => g
  end.

Definition update_fruit (E : Env) (g : Game) : Game :=
  if fruit_active g then
    let '(t, g) := time_time E g in
    if (10 <? t - fruit_spawn_time g)%float then g <| fruit_active := false |> else g
  else g.

(** "Check for fruit spawn triggers": the block that follows both the
    pellet and the power-pill pickup. *)
Definition fruit_spawn_triggers (E : Env) (g : Game) : Game :=
  if (dots_eaten g =? 70) && negb (fruit_triggered_70 g) then
    (spawn_fruit E g) <| fruit_triggered_70 := true |>
  else if (dots_eaten g =? 170) && negb (fruit_triggered_170 g) then
    (spawn_fruit E g) <| fruit_triggered_170 := true |>
  else g.

(** "Check for pellet collection" *)
Definition eat_pellet (E : Env) (p : Point) (g : Game) : Game :=
  if decide (p ∈ pellets g) then
    let g := g <| pellets ::= (fun s => s ∖ {[ p ]}) |> in
    let g := g <| score ::= (fun n => n + 10) |> in
    let g := g <| pellets_remaining ::= (fun n => n - 1) |> in
    let g := g <| dots_eaten ::= (fun n => n + 1) |> in
    fruit_spawn_triggers E (check_extra_life g)
  else g.

(** "Check for power pill" *)
Definition eat_power_pill (E : Env) (p : Point) (g : Game) : Game :=
  if decide (p ∈ power_pills g) then
    let g := g <| power_pills ::= (fun s => s ∖ {[ p ]}) |> in
    let g := g <| score ::= (fun n => n + 50) |> in
    let g := g <| pellets_remaining ::= (fun n => n - 1) |> in
    let g := g <| dots_eaten ::= (fun n => n + 1) |> in
    let g := fruit_spawn_triggers E (check_extra_life g) in
    let '(t, g) := time_time E g in
    g <| power_mode_time := t |>
      <| ghosts ::= fmap (fun ghost : Ghost => ghost <| frightened := true |>) |>
  else g.

(** "Check for fruit" *)
Definition eat_fruit (p : Point) (g : Game) : Game :=
  match fruit g with
  | Some f =>
      if fruit_active g && (p.1 =? f.1) && (p.2 =? f.2) then
        check_extra_life (g <| score ::= (fun n => n + 100) |> <| fruit_active := false |>)
      else g
  | None => g
  end.

(** "Check win condition" *)
Definition check_win (g : Game) : Game :=
  if pellets_remaining g =? 0 then g <| won := true |> else g.

(** "Try to change direction if new direction pressed" *)
Definition turn_pacman (g : Game) (pm : PacMan) : Result PacMan :=
  if negb (next_dy pm =? 0) || negb (next_dx pm =? 0) then
    let new_y := y pm + next_dy pm in
    let new_x := x pm + next_dx pm in
    let* ok := is_valid_move g new_y new_x in
    Ok (if ok : bool then
          pm <| pacman_base ::= set_velocity (next_dy pm, next_dx pm) |>
             <| next_dy := 0 |> <| next_dx := 0 |>
        else pm)
  else Ok pm.

(** How a loop body or a method body was left. *)
Inductive flow : Type :=
| Next      (* fell through to the code that follows *)
| Return.   (* executed [return] *)

(** "Continue in current direction": the tunnel, else a normal step, else
    a stop at the wall.  [Return] is the early [return] of the two tunnel
    branches. *)
Definition advance_pacman (g : Game) (pm : PacMan) : Result (flow * PacMan) :=
  if negb (dy pm =? 0) || negb (dx pm =? 0) then
    let new_y := y pm + dy pm in
    let new_x := x pm + dx pm in
    let current_pos : Point := (y pm, x pm) in
    match warp_exit g current_pos (dx pm) with
    | Some exit => Ok (Return, pm <| pacman_base ::= move_to exit |>)
    | None =>
        let* ok := is_valid_move g new_y new_x in
        Ok (Next, if ok : bool then pm <| pacman_base ::= move_to (new_y, new_x) |>
                  else pm <| pacman_base ::= set_velocity (0, 0) |>)
    end
  else Ok (Next, pm).

(** The four checks that end [move_pacman], at the player's cell [p]. *)
Definition pickup (E : Env) (p : Point) (g : Game) : Game :=
  check_win (eat_fruit p (eat_power_pill E p (eat_pellet E p g))).

Definition move_pacman (E : Env) (g : Game) : Result Game :=
  match pacman g with
  | None => Ok g
  | Some pm =>
      let old : Point := (y pm, x pm) in
      let* pm := turn_pacman g pm in
      let* (how, pm) := advance_pacman g pm in
      let g := g <| pacman := Some pm |> <| prev_pacman_pos := Some old |> in
      match how with
      | Return => Ok g
      | Next => Ok (pickup E (y pm, x pm) g)
      end
  end.

(** ** Collisions *)

Definition check_ghost_collision_with_crossing
    (g : Game) (ghost : Ghost) (old_ghost_y old_ghost_x : Z) : bool :=
  match pacman g with
  | None => false
  | Some pm =>
      if (y ghost =? y pm) && (x ghost =? x pm) then true
      else
        let pacman_old_y := y pm - dy pm in
        let pacman_old_x := x pm - dx pm in
        (pacman_old_y =? y ghost) && (pacman_old_x =? x ghost) &&
        (old_ghost_y =? y pm) && (old_ghost_x =? x pm)
  end.

(** The body of the ghost loop of [reset_positions] for the ghost at
    index [i], whose start is [start] when [i < len(self.ghost_starts)]. *)
Definition reset_ghost (start : option Point) (ghost : Ghost) : Ghost :=
  let ghost := match start with
               | Some p => ghost <| ghost_base ::= move_to p |>
               | None => ghost
               end in
  ghost <| ghost_base ::= set_velocity (0, 0) |> <| frightened := false |>.

(** [reset_positions].  Both [self.pacman.y = ...] and [self.pacman.dy = 0]
    raise when [self.pacman] is [None]. *)
Definition reset_positions (g : Game) : Result Game :=
  match pacman g with
  | None => Raise AttributeError
  | Some pm =>
      let '(pm, g) :=
        match pacman_start g with
        | Some start =>
            (pm <| pacman_base ::= move_to start |>,
             g <| prev_pacman_pos := Some (y pm, x pm) |>)
        | None => (pm, g)
        end in
      let pm := pm <| pacman_base ::= set_velocity (0, 0) |>
                   <| next_dy := 0 |> <| next_dx := 0 |> in
      let g := g <| pacman := Some pm |> in
      let prev := imap (fun i old => match (ghosts g !! i : option Ghost) with
                                      | Some ghost => Some (y ghost, x ghost)
                                      | None => old
                                      end) (prev_ghost_positions g) in
      let reset := imap (fun i ghost => reset_ghost (ghost_starts g !! i) ghost) (ghosts g) in
      Ok (g <| prev_ghost_positions := prev |> <| ghosts := reset |>
            <| power_mode_time := 0%float |>)
  end.

(** [handle_collision(ghost)], where [ghost] is the object at index [i] of
    [self.ghosts] (what [self.ghosts.index(ghost)] finds).  Writing the
    mutated ghost back at [i] is the mutation of the object in place. *)
Definition handle_collision (i : nat) (ghost : Ghost) (g : Game) : Result Game :=
  if frightened ghost then
    let g := g <| score ::= (fun n => n + 200) |> in
    let '(ghost, g) :=
      match ghost_starts g !! i with
      | Some start =>
          (ghost <| ghost_base ::= move_to start |>,
           g <| prev_ghost_positions ::= <[i := Some (y ghost, x ghost)]> |>)
      | None => (ghost, g)
      end in
    let ghost := ghost <| frightened := false |> <| ghost_base ::= set_velocity (0, 0) |> in
    Ok (g <| ghosts ::= <[i := ghost]> |>)
  else if 0 <? lives g then
    let g := g <| lives ::= (fun n => n - 1) |> in
    if lives g <=? 0 then Ok (g <| game_over := true |>)
    else reset_positions g
  else Ok g.

(** [check_collisions]: the first ghost on the player's cell, if any. *)
Definition check_collisions (g : Game) : Result Game :=
  match pacman g with
  | None => Ok g
  | Some pm =>
      match list_find (fun ghost : Ghost => y ghost = y pm ∧ x ghost = x pm) (ghosts g) with
      | Some (i, ghost) => handle_collision i ghost g
      | None => Ok g
      end
  end.

(** ** The ghosts *)

(** [ghost.dy, ghost.dx = random.choice(directions)], under the guard
    [if directions:]. *)
Definition pick_direction (E : Env) (directions : list (Z * Z)) (ghost : Ghost) (g : Game)
    : Result (Ghost * Game) :=
  match directions with
  | [] => Ok (ghost, g)
  | _ => let* (d, g) := random_choice E directions g in
         Ok (ghost <| ghost_base ::= set_velocity d |>, g)
  end.

(** "Initialize ghost movement if not moving" *)
Definition start_moving (E : Env) (ghost : Ghost) (g : Game) : Result (Ghost * Game) :=
  if (dy ghost =? 0) && (dx ghost =? 0) then
    let* directions := get_valid_directions g (y ghost) (x ghost) in
    pick_direction E directions ghost g
  else Ok (ghost, g).

(** "Random chance to change direction at junction" *)
Definition junction_turn (E : Env) (ghost : Ghost) (g : Game) : Result (Ghost * Game) :=
  let* junction := is_junction g (y ghost) (x ghost) in
  if junction : bool then
    let '(u, g) := random_random E g in
    if (u <? 0.3)%float then
      let* directions := get_valid_directions g (y ghost) (x ghost) in
      match directions with
      | [] => Ok (ghost, g)
      | _ =>
          let opposite := (- dy ghost, - dx ghost) in
          let newdirs := filter (fun d => d ≠ opposite) directions in
          pick_direction E newdirs ghost g
      end
    else Ok (ghost, g)
  else Ok (ghost, g).

(** [self.ghosts[i]] is the mutated [ghost]. *)
Definition put_ghost (i : nat) (ghost : Ghost) (g : Game) : Game :=
  g <| ghosts ::= <[i := ghost]> |>.

(** [if len(self.prev_ghost_positions) > i: self.prev_ghost_positions[i] = old] *)
Definition record_prev (i : nat) (old : Point) (g : Game) : Game :=
  g <| prev_ghost_positions ::= <[i := Some old]> |>.

(** The collision check that follows a ghost's move, with the [return]
    on [game_over]. *)
Definition collide (i : nat) (ghost : Ghost) (old_ghost_y old_ghost_x : Z) (g : Game)
    : Result (flow * Game) :=
  if check_ghost_collision_with_crossing g ghost old_ghost_y old_ghost_x then
    let* g := handle_collision i ghost g in
    Ok (if game_over g then Return else Next, g)
  else Ok (Next, g).

(** "Try to move": the tunnel, else a normal step, else a new direction at
    the wall; a ghost that moved is checked for a collision.  [old_ghost_y]
    and [old_ghost_x] are the ghost's cell at the start of its turn. *)
Definition ghost_move (E : Env) (i : nat) (ghost : Ghost) (old_ghost_y old_ghost_x : Z)
    (g : Game) : Result (flow * Game) :=
  let new_y := y ghost + dy ghost in
  let new_x := x ghost + dx ghost in
  let current_pos : Point := (y ghost, x ghost) in
  match warp_exit g current_pos (dx ghost) with
  | Some exit =>
      let ghost := ghost <| ghost_base ::= move_to exit |> in
      let g := record_prev i (old_ghost_y, old_ghost_x) (put_ghost i ghost g) in
      collide i ghost old_ghost_y old_ghost_x g
  | None =>
      let* ok := is_valid_move g new_y new_x in
      if ok : bool then
        let ghost := ghost <| ghost_base ::= move_to (new_y, new_x) |> in
        let* (how, g) := collide i ghost old_ghost_y old_ghost_x (put_ghost i ghost g) in
        match how with
        | Return => Ok (Return, g)
        | Next => Ok (Next, record_prev i (old_ghost_y, old_ghost_x) g)
        end
      else
        let* directions := get_valid_directions g (y ghost) (x ghost) in
        let* (ghost, g) := pick_direction E directions ghost g in
        Ok (Next, record_prev i (old_ghost_y, old_ghost_x) (put_ghost i ghost g))
  end.

(** The body of the loop of [move_ghosts] for the ghost at index [i]. *)
Definition ghost_turn (E : Env) (i : nat) (ghost : Ghost) (g : Game) : Result (flow * Game) :=
  let old_ghost_y := y ghost in
  let old_ghost_x := x ghost in
  let* (ghost, g) := start_moving E ghost g in
  let* (ghost, g) := junction_turn E ghost g in
  ghost_move E i ghost old_ghost_y old_ghost_x g.

(** [for i, ghost in enumerate(self.ghosts)] over the indices [indices]:
    the iteration ends when the index is past the list. *)
Fixpoint ghosts_loop (E : Env) (indices : list nat) (g : Game) : Result Game :=
  match indices with
  | [] => Ok g
  | i :: rest =>
      match ghosts g !! i with
      | None => Ok g
      | Some ghost =>
          let* (how, g) := ghost_turn E i ghost g in
          match how with
          | Return => Ok g
          | Next => ghosts_loop E rest g
          end
      end
  end.

Definition move_ghosts (E : Env) (g : Game) : Result Game :=
  let '(current_time, g) := time_time E g in
  let g :=
    if (0 <? power_mode_time g)%float && (6 <? current_time - power_mode_time g)%float
    then g <| power_mode_time := 0%float |>
           <| ghosts ::= fmap (fun ghost : Ghost => ghost <| frightened := false |>) |>
    else g in
  let g := update_fruit E g in
  ghosts_loop E (seq 0 (length (ghosts g))) g.

(** ** Levels, reset and the main loop *)

(** [max(a, b)] of Python on two floats. *)
Definition py_max (a b : float) : float := if (a <? b)%float then b else a.

Definition next_level (g : Game) : Result Game :=
  let g := g <| level ::= (fun n => n + 1) |> <| won := false |> <| power_mode_time := 0%float |> in
  let g := g <| fruit_spawn_time := 0%float |> <| fruit_active := false |> <| dots_eaten := 0 |>
             <| fruit_triggered_70 := false |> <| fruit_triggered_170 := false |> in
  let g := g <| pellets := initial_pellets g |> <| power_pills := initial_power_pills g |> in
  let g := g <| pellets_remaining :=
                  Z.of_nat (size (pellets g)) + Z.of_nat (size (power_pills g)) |> in
  let g := match initial_fruit g with
           | Some f => g <| fruit := Some f |>
           | None => g
           end in
  let* g := reset_positions g in
  Ok (g <| speed := py_max 0.08 (speed g - 0.01)%float |>).

Definition reset_game (g : Game) : Result Game :=
  let g := g <| score := 0 |> <| lives := 3 |> <| game_over := false |> <| won := false |>
             <| power_mode_time := 0%float |> <| level := 1 |> <| extra_life_awarded := false |> in
  let g := g <| fruit_spawn_time := 0%float |> <| fruit_active := false |> <| dots_eaten := 0 |>
             <| fruit_triggered_70 := false |> <| fruit_triggered_170 := false |> in
  let g := g <| pellets := initial_pellets g |> <| power_pills := initial_power_pills g |> in
  let g := g <| pellets_remaining :=
                  Z.of_nat (size (pellets g)) + Z.of_nat (size (power_pills g)) |> in
  let g := match initial_fruit g with
           | Some f => g <| fruit := Some f |>
           | None => g
           end in
  let g := g <| speed := 0.15%float |> in
  let g := g <| prev_pacman_pos := None |>
             <| prev_ghost_positions := replicate (length (ghosts g)) None |> in
  reset_positions g.

(** One tick: the three calls under "Update game state" in [run]. *)
Definition tick (E : Env) (g : Game) : Result Game :=
  let* g := move_pacman E g in
  let* g := move_ghosts E g in
  check_collisions g.

(** What [getch] returned, as far as [run] tells keys apart. *)
Inductive Key : Type :=
| Key_q | Key_r | Key_space | KEY_UP | KEY_DOWN | KEY_LEFT | KEY_RIGHT | Key_none.

(** [self.pacman.next_dy = a; self.pacman.next_dx = b] *)
Definition set_next (a b : Z) (g : Game) : Result Game :=
  match pacman g with
  | None => Raise AttributeError
  | Some pm => Ok (g <| pacman := Some (pm <| next_dy := a |> <| next_dx := b |>) |>)
  end.

(** The state of [run]: the game and the local [last_move_time]. *)
Record Loop : Type := { self : Game; last_move_time : float }.

Definition Loop_eta (st : Loop) : Loop :=
  {| self := self st; last_move_time := last_move_time st |}.
#[global] Instance set_self : Setter self := ltac:(setter Loop_eta self).

(** "Handle input", for a key other than [q]. *)
Definition handle_input (E : Env) (key : Key) (st : Loop) : Result Loop :=
  let g := self st in
  match key with
  | Key_r =>
      if game_over g || won g then
        let* g := reset_game g in
        let '(t, g) := time_time E g in
        Ok {| self := g; last_move_time := t |}
      else Ok st
  | Key_space =>
      if won g then
        let* g := next_level g in
        let '(t, g) := time_time E g in
        Ok {| self := g; last_move_time := t |}
      else Ok st
  | _ =>
      if negb (game_over g) && negb (won g) then
        let* g := match key with
            | KEY_UP => set_next (-1) 0 g
            | KEY_DOWN => set_next 1 0 g
            | KEY_LEFT => set_next 0 (-1) g
            | KEY_RIGHT => set_next 0 1 g
            | _ => Ok g
            end in
        Ok (st <| self := g |>)
      else Ok st
  end.

(** "Update game state": a tick, when the game is on and the tick interval
    has passed since [last_move_time]. *)
Definition update_game (E : Env) (current_time : float) (st : Loop) : Result Loop :=
  let g := self st in
  if negb (game_over g) && negb (won g) then
    if (speed g <=? current_time - last_move_time st)%float then
      let* g := tick E g in
      Ok {| self := g; last_move_time := current_time |}
    else Ok st
  else Ok st.

(** One iteration of the [while True] of [run], drawing left out; [None]
    is the [break]. *)
Definition run_iteration (E : Env) (key : Key) (st : Loop) : Result (option Loop) :=
  let '(current_time, g) := time_time E (self st) in
  let st := st <| self := g |> in
  match key with
  | Key_q => Ok None
  | _ =>
      let* st := handle_input E key st in
      let* st := update_game E current_time st in
      Ok (Some st)
  end.
(** ** What the invariants speak of *)

(** [m] returns normally, with a result that satisfies [P]. *)
Definition returns {A : Type} (m : Result A) (P : A -> Prop) : Prop :=
  exists a, m = Ok a /\ P a.

(** The maze predicates take the grid and its recorded size, so that they
    are visibly untouched by assignments to the other attributes. *)
Definition rect_grid (m : list (list ascii)) (h w : Z) : Prop :=
  len m = h /\ Forall (fun row => len row = w) m.

Definition inside (h w : Z) (p : Point) : bool :=
  (0 <=? p.1) && (p.1 <? h) && (0 <=? p.2) && (p.2 <? w).

Definition grid_at (m : list (list ascii)) (p : Point) : option ascii :=
  row ← m !! Z.to_nat p.1; row !! Z.to_nat p.2.

(** The cell [p] is inside the maze and holds [c]. *)
Definition cell_in (m : list (list ascii)) (h w : Z) (c : ascii) (p : Point) : Prop :=
  inside h w p = true /\ grid_at m p = Some c.

(** The cell [p] is inside the maze and is not a wall. *)
Definition open_in (m : list (list ascii)) (h w : Z) (p : Point) : Prop :=
  inside h w p = true /\ exists c, grid_at m p = Some c /\ c <> "#"%char.

Definition open_cell (m : list (list ascii)) (h w : Z) (p : Point) : bool :=
  inside h w p &&
  match grid_at m p with
  | Some c => bool_decide (c <> "#"%char)
  | None => false
  end.

Abbreviation rect g := (rect_grid (original_map g) (height g) (width g)).
Abbreviation cell_is g c p := (cell_in (original_map g) (height g) (width g) c p).
Abbreviation open_at g p := (open_in (original_map g) (height g) (width g) p).
Abbreviation is_open g p := (open_cell (original_map g) (height g) (width g) p).

(** The tick intervals a game goes through: 0.15 and what [next_level]
    makes of it, down to the floor. *)
Fixpoint lowered (n : nat) (v : float) : list float :=
  match n with
  | O => []
  | S n => v :: lowered n (py_max 0.08 (v - 0.01))
  end.

Definition speed_levels : list float := lowered 8 0.15.

(** The invariant of the game: it holds after [Game_init] and every method
    keeps it. *)
Record Inv (g : Game) : Prop := {
  inv_rect : rect g;
  inv_initial_pellets : forall p, p ∈ initial_pellets g -> cell_is g "."%char p;
  inv_initial_pills : forall p, p ∈ initial_power_pills g -> cell_is g "o"%char p;
  inv_initial_fruit : forall p, initial_fruit g = Some p -> cell_is g " "%char p;
  inv_warp_left : forall p, warp_left g = Some p -> cell_is g " "%char p;
  inv_warp_right : forall p, warp_right g = Some p -> cell_is g " "%char p;
  inv_pacman_start : forall p, pacman_start g = Some p -> cell_is g " "%char p;
  inv_ghost_starts : Forall (fun p => cell_is g " "%char p) (ghost_starts g);
  inv_pellets : pellets g ⊆ initial_pellets g;
  inv_pills : power_pills g ⊆ initial_power_pills g;
  inv_fruit : fruit g = initial_fruit g;
  inv_remaining :
    pellets_remaining g = Z.of_nat (size (pellets g)) + Z.of_nat (size (power_pills g));
  inv_player : is_Some (pacman g) <-> is_Some (pacman_start g);
  inv_pacman : forall pm : PacMan, pacman g = Some pm -> open_at g (y pm, x pm);
  inv_ghosts_len : length (ghosts g) = length (ghost_starts g);
  inv_ghosts : Forall (fun ghost : Ghost => open_at g (y ghost, x ghost)) (ghosts g);
  inv_terminal : won g = true \/ game_over g = true -> is_Some (pacman g);
  inv_lives : game_over g = false -> 0 < lives g;
  inv_triggered_70 : fruit_triggered_70 g = true -> 70 <= dots_eaten g;
  inv_triggered_170 : fruit_triggered_170 g = true -> 170 <= dots_eaten g;
  inv_speed : In (speed g) speed_levels
}.

(** ** The world model *)

Lemma returns_Ok {A : Type} (a : A) (P : A -> Prop) : P a -> returns (Ok a) P.
Proof. intros H. exists a. split; [reflexivity | exact H]. Qed.

Lemma returns_bind {A B : Type} (m : Result A) (k : A -> Result B) (Q : B -> Prop) :
  returns m (fun a => returns (k a) Q) -> returns (let* a := m in k a) Q.
Proof. intros (a & -> & H). exact H. Qed.

Lemma returns_weaken {A : Type} (m : Result A) (P Q : A -> Prop) :
  returns m P -> (forall a, P a -> Q a) -> returns m Q.
Proof. intros (a & Hm & Ha) HPQ. exists a. split; [exact Hm | apply HPQ, Ha]. Qed.

Lemma len_nonneg {A : Type} (l : list A) : 0 <= len l.
Proof. unfold len. lia. Qed.

Lemma inside_spec (h w : Z) (p : Point) :
  inside h w p = true <-> 0 <= p.1 < h /\ 0 <= p.2 < w.
Proof. unfold inside. rewrite !andb_true_iff. lia. Qed.

Lemma grid_at_inside (m : list (list ascii)) (h w : Z) (p : Point) :
  rect_grid m h w -> inside h w p = true -> exists c, grid_at m p = Some c.
Proof.
  intros [Hh Hw] Hin. apply inside_spec in Hin. unfold grid_at, len in *.
  destruct (lookup_lt_is_Some_2 m (Z.to_nat p.1)) as [row Hrow]; [lia|].
  rewrite Hrow. simpl.
  rewrite Forall_forall in Hw. specialize (Hw row).
  apply lookup_lt_is_Some_2.
  assert (Z.of_nat (length row) = w) by (eapply Hw, list_elem_of_lookup_2, Hrow).
  lia.
Qed.

Lemma open_cell_spec (m : list (list ascii)) (h w : Z) (p : Point) :
  open_cell m h w p = true <-> open_in m h w p.
Proof.
  unfold open_cell, open_in. rewrite andb_true_iff. split.
  - intros [Hin Hc]. split; [exact Hin|].
    destruct (grid_at m p) as [c|]; [|discriminate].
    exists c. split; [reflexivity|]. by apply bool_decide_eq_true in Hc.
  - intros [Hin (c & -> & Hc)]. split; [exact Hin|]. by apply bool_decide_eq_true.
Qed.

Lemma cell_blank_open (m : list (list ascii)) (h w : Z) (p : Point) :
  cell_in m h w " "%char p -> open_in m h w p.
Proof. intros [Hin Hc]. split; [exact Hin|]. exists " "%char. split; [exact Hc | discriminate]. Qed.

Lemma map_at_grid (g : Game) (p : Point) (c : ascii) :
  grid_at (original_map g) p = Some c -> map_at g p.1 p.2 = Ok c.
Proof.
  unfold grid_at, map_at. destruct (original_map g !! Z.to_nat p.1) as [row|]; simpl; [|discriminate].
  intros ->. reflexivity.
Qed.

(** In a rectangular maze [is_valid_move] never indexes out of range. *)
Lemma is_valid_move_rect (g : Game) (y0 x0 : Z) :
  rect g -> is_valid_move g y0 x0 = Ok (is_open g (y0, x0)).
Proof.
  intros Hrect. unfold is_valid_move, open_cell, in_bounds.
  change ((0 <=? y0) && (y0 <? height g) && (0 <=? x0) && (x0 <? width g))
    with (inside (height g) (width g) (y0, x0)).
  destruct (inside (height g) (width g) (y0, x0)) eqn:Hin; [|reflexivity].
  destruct (grid_at_inside _ _ _ _ Hrect Hin) as [c Hc].
  pose proof (map_at_grid g (y0, x0) c Hc) as Hm. simpl in Hm.
  rewrite Hm, Hc. reflexivity.
Qed.

(** The fields of the invariant that an assignment leaves as they were are
    closed by the field itself. *)
Ltac inv_same H :=
  first
    [ exact (inv_rect _ H) | exact (inv_initial_pellets _ H)
    | exact (inv_initial_pills _ H) | exact (inv_initial_fruit _ H)
    | exact (inv_warp_left _ H) | exact (inv_warp_right _ H)
    | exact (inv_pacman_start _ H) | exact (inv_ghost_starts _ H)
    | exact (inv_pellets _ H) | exact (inv_pills _ H) | exact (inv_fruit _ H)
    | exact (inv_remaining _ H) | exact (inv_player _ H) | exact (inv_pacman _ H)
    | exact (inv_ghosts_len _ H) | exact (inv_ghosts _ H) | exact (inv_terminal _ H)
    | exact (inv_lives _ H) | exact (inv_triggered_70 _ H)
    | exact (inv_triggered_170 _ H) | exact (inv_speed _ H) ].

Ltac inv_frame H := constructor; try (inv_same H); simpl.

(** ** Loading: the maze is rectangular *)

Lemma widest_bounds (rows : list (list ascii)) (w0 : Z) :
  let w := foldl (fun w row => if w <? len row then len row else w) w0 rows in
  w0 <= w /\ Forall (fun row => len row <= w) rows.
Proof.
  revert w0. induction rows as [|row rows IH]; intros w0; simpl.
  - split; [lia | constructor].
  - destruct (IH (if w0 <? len row then len row else w0)) as [Hle Hall].
    destruct (Z.ltb_spec w0 (len row)); (split; [lia | constructor; [lia | exact Hall]]).
Qed.

Lemma load_map_rect (file : option (list string)) :
  rect_grid (load_map file).1.1 (load_map file).1.2 (load_map file).2.
Proof.
  unfold load_map. simpl.
  set (rows := _ <$> match file with Some ls => ls | None => [] end).
  destruct (widest_bounds rows 0) as [_ Hall]. simpl in Hall.
  set (w := foldl _ 0 rows) in *.
  split.
  - unfold len. by rewrite length_fmap.
  - apply Forall_fmap. eapply Forall_impl; [exact Hall|].
    intros row Hrow. simpl. unfold len in *.
    rewrite length_app, length_replicate. lia.
Qed.

(** The missing or unreadable maze file gives the empty world. *)
Lemma load_map_missing : load_map None = ([], 0, 0).
Proof. reflexivity. Qed.

(** ** Parsing: what the two loops establish *)

Definition look (m : list (list ascii)) (r c : nat) : option ascii :=
  row ← m !! r; row !! c.

Lemma grid_at_look (m : list (list ascii)) (r c : nat) :
  grid_at m (Z.of_nat r, Z.of_nat c) = look m r c.
Proof. unfold grid_at, look. simpl. by rewrite !Nat2Z.id. Qed.

Lemma look_blank_same (m : list (list ascii)) (r c : nat) :
  is_Some (look m r c) -> look (blank r c m) r c = Some " "%char.
Proof.
  unfold look, blank. rewrite list_lookup_alter_eq.
  destruct (m !! r) as [row|]; simpl; [|by intros [? ?]].
  intros Hc. apply list_lookup_insert_eq. by apply lookup_lt_is_Some_1.
Qed.

Lemma look_blank_other (m : list (list ascii)) (r c r' c' : nat) :
  (r, c) <> (r', c') -> look (blank r c m) r' c' = look m r' c'.
Proof.
  intros Hne. unfold look, blank.
  destruct (decide (r = r')) as [<-|Hr].
  - rewrite list_lookup_alter_eq.
    destruct (m !! r) as [row|]; simpl; [|reflexivity].
    apply list_lookup_insert_ne. congruence.
  - by rewrite list_lookup_alter_ne.
Qed.

Lemma look_blank (m : list (list ascii)) (r c r' c' : nat) :
  look (blank r c m) r' c' = look m r' c' \/
  (look (blank r c m) r' c' = Some " "%char /\ r' = r /\ c' = c).
Proof.
  destruct (decide ((r, c) = (r', c'))) as [[= <- <-]|Hne].
  - destruct (look m r c) eqn:Hl.
    + right. split; [|done]. apply look_blank_same. by rewrite Hl.
    + left. unfold look, blank in *. rewrite list_lookup_alter_eq.
      destruct (m !! r) as [row|]; simpl in *; [|reflexivity].
      apply lookup_ge_None. rewrite length_insert. by apply lookup_ge_None.
  - left. by apply look_blank_other.
Qed.

Lemma look_blank_keeps (m : list (list ascii)) (r c r' c' : nat) :
  look m r' c' = Some " "%char -> look (blank r c m) r' c' = Some " "%char.
Proof.
  intros H. destruct (look_blank m r c r' c') as [Heq|[Heq _]]; [by rewrite Heq | exact Heq].
Qed.

Lemma rect_blank (m : list (list ascii)) (h w : Z) (r c : nat) :
  rect_grid m h w -> rect_grid (blank r c m) h w.
Proof.
  unfold rect_grid, blank, len. intros [Hh Hw]. split.
  - by rewrite length_alter.
  - apply Forall_alter; [exact Hw|]. intros row _ Hrow. by rewrite length_insert.
Qed.

(** The characters that [parse_map] replaces by a blank. *)
Definition marker (ch : ascii) : Prop :=
  ch ∈ ["c"; "n"; "@"; "<"; ">"]%char.

(** [p] is a cell of [m] that holds a blank. *)
Definition blank_cell (m : list (list ascii)) (p : Point) : Prop :=
  exists r c, p = (Z.of_nat r, Z.of_nat c) /\ look m r c = Some " "%char.

(** [p] is a cell of [m] that holds [ch]. *)
Definition cell_of (m : list (list ascii)) (ch : ascii) (p : Point) : Prop :=
  exists r c, p = (Z.of_nat r, Z.of_nat c) /\ look m r c = Some ch.

(** What holds of the game while [parse_map] runs over the maze [m0] that
    [load_map] built. *)
Record Parsing (m0 : list (list ascii)) (g : Game) : Prop := {
  pa_cells :
    forall r c, look (original_map g) r c = look m0 r c \/
                (look (original_map g) r c = Some " "%char /\
                 exists ch, look m0 r c = Some ch /\ marker ch);
  pa_rect : rect g;
  pa_initial_pellets : forall p, p ∈ initial_pellets g -> cell_of m0 "."%char p;
  pa_initial_pills : forall p, p ∈ initial_power_pills g -> cell_of m0 "o"%char p;
  pa_pellets : pellets g = initial_pellets g;
  pa_pills : power_pills g = initial_power_pills g;
  pa_fruit : fruit g = initial_fruit g;
  pa_initial_fruit : forall p, initial_fruit g = Some p -> blank_cell (original_map g) p;
  pa_warp_left : forall p, warp_left g = Some p -> blank_cell (original_map g) p;
  pa_warp_right : forall p, warp_right g = Some p -> blank_cell (original_map g) p;
  pa_pacman_start : forall p, pacman_start g = Some p -> blank_cell (original_map g) p;
  pa_ghost_starts : Forall (blank_cell (original_map g)) (ghost_starts g);
  pa_pacman : pacman g = (fun p : Point => new_PacMan p.1 p.2) <$> pacman_start g;
  pa_ghosts : ghosts g = (fun p : Point => new_Ghost p.1 p.2) <$> ghost_starts g
}.

Lemma blank_cell_blank (m : list (list ascii)) (r c : nat) (p : Point) :
  blank_cell m p -> blank_cell (blank r c m) p.
Proof. intros (r' & c' & -> & H). exists r', c'. split; [done|]. by apply look_blank_keeps. Qed.

Lemma blank_cell_here (m : list (list ascii)) (r c : nat) :
  is_Some (look m r c) -> blank_cell (blank r c m) (Z.of_nat r, Z.of_nat c).
Proof. intros H. exists r, c. split; [done|]. by apply look_blank_same. Qed.

(** The attributes [parse_map] leaves alone while it loops. *)
Definition untouched (g : Game) :=
  (height g, width g, score g, lives g, game_over g, won g, speed g, level g,
   extra_life_awarded g, fruit_active g, dots_eaten g, fruit_triggered_70 g,
   fruit_triggered_170 g, prev_pacman_pos g, (time_calls g, random_calls g, choice_calls g)).

Lemma parse_cell_untouched (r c : nat) (ch : ascii) (g : Game) :
  untouched (parse_cell r c ch g) = untouched g.
Proof. unfold parse_cell. repeat case_decide; reflexivity. Qed.

Lemma parse_row_untouched (r : nat) (row : list ascii) :
  forall c g, untouched (parse_row r c row g) = untouched g.
Proof.
  induction row as [|ch row IH]; intros c g; simpl; [reflexivity|].
  by rewrite IH, parse_cell_untouched.
Qed.

Lemma parse_rows_untouched (rows : list (list ascii)) :
  forall r g, untouched (parse_rows r rows g) = untouched g.
Proof.
  induction rows as [|row rows IH]; intros r g; simpl; [reflexivity|].
  by rewrite IH, parse_row_untouched.
Qed.

Lemma cells_after_blank (m0 m : list (list ascii)) (r c : nat) (ch : ascii) :
  look m0 r c = Some ch -> marker ch ->
  (forall r' c', look m r' c' = look m0 r' c' \/
                 (look m r' c' = Some " "%char /\
                  exists ch', look m0 r' c' = Some ch' /\ marker ch')) ->
  forall r' c', look (blank r c m) r' c' = look m0 r' c' \/
                (look (blank r c m) r' c' = Some " "%char /\
                 exists ch', look m0 r' c' = Some ch' /\ marker ch').
Proof.
  intros Hl Hmark Hcells r' c'.
  destruct (look_blank m r c r' c') as [->|(-> & -> & ->)]; [apply Hcells|].
  right. split; [done|]. by exists ch.
Qed.

Lemma parse_cell_Parsing (m0 : list (list ascii)) (r c : nat) (ch : ascii) (g : Game) :
  look m0 r c = Some ch -> Parsing m0 g -> Parsing m0 (parse_cell r c ch g).
Proof.
  intros Hl HP.
  assert (Hsome : is_Some (look (original_map g) r c)).
  { destruct (pa_cells _ _ HP r c) as [->|[-> _]]; eauto. }
  pose proof (blank_cell_here _ _ _ Hsome) as Hhere.
  destruct HP as [Hcells Hrect Hipe Hipi Hpe Hpi Hfr Hif Hwl Hwr Hps Hgs Hpm Hgh].
  unfold parse_cell. repeat case_decide; subst; constructor; simpl.
  all: try assumption.
  all: try (apply (cells_after_blank m0 _ r c _ Hl); [unfold marker; repeat constructor | assumption]).
  all: try (by apply rect_blank).
  all: try (intros p [= <-]; exact Hhere).
  all: try (intros p Hp; apply blank_cell_blank; auto; fail).
  all: try (eapply Forall_impl; [eassumption|]; intros p Hp; by apply blank_cell_blank).
  all: try congruence.
  - apply Forall_app. split; [|by repeat constructor].
    eapply Forall_impl; [exact Hgs|]. intros p Hp. by apply blank_cell_blank.
  - by rewrite fmap_app, Hgh.
  - intros p [Hp| ->%elem_of_singleton]%elem_of_union; [by apply Hipe | by exists r, c].
  - intros p [Hp| ->%elem_of_singleton]%elem_of_union; [by apply Hipi | by exists r, c].
Qed.

Lemma parse_row_Parsing (m0 : list (list ascii)) (r : nat) (row : list ascii) :
  forall c g,
    (forall k ch, row !! k = Some ch -> look m0 r (c + k) = Some ch) ->
    Parsing m0 g -> Parsing m0 (parse_row r c row g).
Proof.
  induction row as [|ch row IH]; intros c g Hrow HP; simpl; [exact HP|].
  apply IH.
  - intros k ch' Hk. replace (S c + k)%nat with (c + S k)%nat by lia. by apply Hrow.
  - apply parse_cell_Parsing; [|exact HP].
    replace c with (c + 0)%nat at 1 by lia. by apply Hrow.
Qed.

Lemma parse_rows_Parsing (m0 rows : list (list ascii)) :
  forall r g,
    (forall k row, rows !! k = Some row -> m0 !! (r + k)%nat = Some row) ->
    Parsing m0 g -> Parsing m0 (parse_rows r rows g).
Proof.
  induction rows as [|row rows IH]; intros r g Hrows HP; simpl; [exact HP|].
  apply IH.
  - intros k row' Hk. replace (S r + k)%nat with (r + S k)%nat by lia. by apply Hrows.
  - apply parse_row_Parsing; [|exact HP].
    intros k ch Hk. unfold look.
    specialize (Hrows 0%nat row eq_refl). rewrite Nat.add_0_r in Hrows.
    by rewrite Hrows.
Qed.

Lemma cell_of_inside (m : list (list ascii)) (h w : Z) (ch : ascii) (p : Point) :
  rect_grid m h w -> cell_of m ch p -> cell_in m h w ch p.
Proof.
  intros [Hh Hw] (r & c & -> & Hl). split; [|by rewrite grid_at_look].
  unfold look in Hl. destruct (m !! r) as [row|] eqn:Hrow; simpl in Hl; [|discriminate].
  apply inside_spec. simpl.
  rewrite Forall_forall in Hw.
  assert (len row = w) by (eapply Hw, list_elem_of_lookup_2, Hrow).
  apply lookup_lt_Some in Hrow, Hl.
  unfold len in *. lia.
Qed.

Lemma speed_levels_first : In 0.15%float speed_levels.
Proof. left. reflexivity. Qed.

(** [Game_init] establishes the invariant, whatever the maze file holds. *)
Lemma Game_init_Inv (file : option (list string)) : Inv (Game_init file).
Proof.
  unfold Game_init.
  pose proof (load_map_rect file) as Hrect.
  destruct (load_map file) as [[m h] w]. simpl in Hrect.
  unfold parse_map.
  match goal with |- context [parse_rows 0 ?rows ?g0] =>
    set (init := g0); change rows with m;
    pose proof (parse_rows_untouched m 0%nat init) as Hsame;
    assert (HP : Parsing m (parse_rows 0 m init))
  end.
  { apply parse_rows_Parsing; [done|]. subst init.
    constructor; simpl; try done; try set_solver. }
  set (g := parse_rows 0 m init) in *.
  unfold untouched in Hsame. simpl in Hsame.
  injection Hsame as Hh Hw Hscore Hlives Hover Hwon Hspeed Hlevel Hextra Hactive Hdots
    H70 H170 Hprev Htime Hrand Hchoice.
  destruct HP as [Hcells Hr Hipe Hipi Hpe Hpi Hfr Hif Hwl Hwr Hps Hgs Hpm Hgh].
  assert (Hblank : forall p, blank_cell (original_map g) p -> cell_is g " "%char p).
  { intros p Hp. by apply cell_of_inside. }
  assert (Hkept : forall ch p, cell_of m ch p -> ~ marker ch -> ch <> " "%char ->
                               cell_is g ch p).
  { intros ch p (r & c & -> & Hl) Hm Hb. apply cell_of_inside; [done|].
    exists r, c. split; [done|].
    destruct (Hcells r c) as [->|[_ (ch' & Hl' & Hm')]]; [done|]. congruence. }
  assert (Hdot : ~ marker "."%char).
  { unfold marker. rewrite !elem_of_cons, elem_of_nil. intuition discriminate. }
  assert (Ho : ~ marker "o"%char).
  { unfold marker. rewrite !elem_of_cons, elem_of_nil. intuition discriminate. }
  constructor; simpl; fold g.
  - exact Hr.
  - intros p Hp. by apply Hkept; [apply Hipe| |].
  - intros p Hp. by apply Hkept; [apply Hipi| |].
  - intros p Hp. by apply Hblank, Hif.
  - intros p Hp. by apply Hblank, Hwl.
  - intros p Hp. by apply Hblank, Hwr.
  - intros p Hp. by apply Hblank, Hps.
  - eapply Forall_impl; [exact Hgs|]. exact Hblank.
  - by rewrite Hpe.
  - by rewrite Hpi.
  - exact Hfr.
  - reflexivity.
  - by rewrite Hpm, fmap_is_Some.
  - intros pm. rewrite Hpm. destruct (pacman_start g) as [p|] eqn:Hp; simpl; [|done].
    intros [= <-]. simpl. apply cell_blank_open. destruct p. by apply Hblank, Hps.
  - by rewrite Hgh, length_fmap.
  - rewrite Hgh. apply Forall_fmap. eapply Forall_impl; [exact Hgs|].
    intros [py px] Hp. simpl. by apply cell_blank_open, Hblank.
  - rewrite Hwon, Hover. by intros [|].
  - rewrite Hlives. lia.
  - by rewrite H70.
  - by rewrite H170.
  - rewrite Hspeed. exact speed_levels_first.
Qed.

(** ** The player's move keeps the invariant *)

(** [g'] is [g] after some reads of the environment. *)
Definition env_step (g g' : Game) : Prop :=
  exists t r c, g' = g <| time_calls := t |> <| random_calls := r |> <| choice_calls := c |>.

Lemma env_step_refl (g : Game) : env_step g g.
Proof. exists (time_calls g), (random_calls g), (choice_calls g). by destruct g. Qed.

Lemma env_step_trans (g1 g2 g3 : Game) : env_step g1 g2 -> env_step g2 g3 -> env_step g1 g3.
Proof. intros (t & r & c & ->) (t' & r' & c' & ->). by exists t', r', c'. Qed.

Lemma env_step_choice (g : Game) : env_step g (g <| choice_calls ::= S |>).
Proof. exists (time_calls g), (random_calls g), (S (choice_calls g)). by destruct g. Qed.

Lemma env_step_random (g : Game) : env_step g (g <| random_calls ::= S |>).
Proof. exists (time_calls g), (S (random_calls g)), (choice_calls g). by destruct g. Qed.

Lemma env_step_time (g : Game) : env_step g (g <| time_calls ::= S |>).
Proof. exists (S (time_calls g)), (random_calls g), (choice_calls g). by destruct g. Qed.

Lemma Inv_env_step (g g' : Game) : Inv g -> env_step g g' -> Inv g'.
Proof. intros H (t & r & c & ->). inv_frame H. Qed.


Lemma size_remove (X : gset Point) (p : Point) :
  p ∈ X -> Z.of_nat (size (X ∖ {[ p ]})) = Z.of_nat (size X) - 1.
Proof.
  intros Hp.
  assert (size X = S (size (X ∖ {[ p ]}))) as ->; [|lia].
  rewrite (union_difference_singleton_L p X Hp) at 1.
  rewrite size_union; [by rewrite size_singleton|].
  intros q Hq1 Hq2. apply elem_of_difference in Hq2 as [_ Hq2]. by apply Hq2.
Qed.

Lemma remove_subseteq (X Y : gset Point) (p : Point) : X ⊆ Y -> X ∖ {[ p ]} ⊆ Y.
Proof. intros HXY q Hq. apply elem_of_difference in Hq as [Hq _]. by apply HXY. Qed.

Lemma check_extra_life_Inv (g : Game) : Inv g -> Inv (check_extra_life g).
Proof.
  intros H. unfold check_extra_life.
  destruct (negb (extra_life_awarded g) && (10000 <=? score g)); [|exact H].
  inv_frame H. intros Hover. pose proof (inv_lives g H Hover). lia.
Qed.

Lemma spawn_fruit_Inv (E : Env) (g : Game) : Inv g -> Inv (spawn_fruit E g).
Proof.
  intros H. unfold spawn_fruit. destruct (initial_fruit g) eqn:Hf; [|exact H].
  inv_frame H.
Qed.

Lemma update_fruit_Inv (E : Env) (g : Game) : Inv g -> Inv (update_fruit E g).
Proof.
  intros H. unfold update_fruit. destruct (fruit_active g); [|exact H]. simpl.
  destruct (_ <? _)%float; inv_frame H.
Qed.

Lemma spawn_fruit_dots (E : Env) (g : Game) :
  dots_eaten (spawn_fruit E g) = dots_eaten g /\
  fruit_triggered_70 (spawn_fruit E g) = fruit_triggered_70 g /\
  fruit_triggered_170 (spawn_fruit E g) = fruit_triggered_170 g.
Proof. unfold spawn_fruit. by destruct (initial_fruit g). Qed.

Lemma fruit_spawn_triggers_Inv (E : Env) (g : Game) :
  Inv g -> Inv (fruit_spawn_triggers E g).
Proof.
  intros H. unfold fruit_spawn_triggers.
  destruct (spawn_fruit_dots E g) as (Hd & H70 & H170).
  pose proof (spawn_fruit_Inv E g H) as Hs.
  destruct ((dots_eaten g =? 70) && negb (fruit_triggered_70 g)) eqn:T70.
  - apply andb_true_iff in T70 as [Hdots%Z.eqb_eq _].
    inv_frame Hs. rewrite Hd. lia.
  - destruct ((dots_eaten g =? 170) && negb (fruit_triggered_170 g)) eqn:T170; [|exact H].
    apply andb_true_iff in T170 as [Hdots%Z.eqb_eq _].
    inv_frame Hs. rewrite Hd. lia.
Qed.

(** The four assignments that open both pickups keep the invariant when
    they remove [p] from the set it is in. *)
Lemma eaten_pellet_Inv (p : Point) (n : Z) (g : Game) :
  Inv g -> p ∈ pellets g ->
  Inv (g <| pellets ::= (fun s => s ∖ {[ p ]}) |> <| score ::= (fun m => m + n) |>
         <| pellets_remaining ::= (fun m => m - 1) |> <| dots_eaten ::= (fun m => m + 1) |>).
Proof.
  intros H Hp. inv_frame H.
  - apply remove_subseteq, (inv_pellets g H).
  - rewrite size_remove by done. pose proof (inv_remaining g H). lia.
  - intros T. pose proof (inv_triggered_70 g H T). lia.
  - intros T. pose proof (inv_triggered_170 g H T). lia.
Qed.

Lemma eaten_pill_Inv (p : Point) (n : Z) (g : Game) :
  Inv g -> p ∈ power_pills g ->
  Inv (g <| power_pills ::= (fun s => s ∖ {[ p ]}) |> <| score ::= (fun m => m + n) |>
         <| pellets_remaining ::= (fun m => m - 1) |> <| dots_eaten ::= (fun m => m + 1) |>).
Proof.
  intros H Hp. inv_frame H.
  - apply remove_subseteq, (inv_pills g H).
  - rewrite size_remove by done. pose proof (inv_remaining g H). lia.
  - intros T. pose proof (inv_triggered_70 g H T). lia.
  - intros T. pose proof (inv_triggered_170 g H T). lia.
Qed.

Lemma eat_pellet_Inv (E : Env) (p : Point) (g : Game) : Inv g -> Inv (eat_pellet E p g).
Proof.
  intros H. unfold eat_pellet. case_decide as Hp; [|exact H].
  by apply fruit_spawn_triggers_Inv, check_extra_life_Inv, eaten_pellet_Inv.
Qed.

Lemma frighten_Inv (t : float) (g : Game) :
  Inv g ->
  Inv (g <| power_mode_time := t |>
         <| ghosts ::= fmap (fun ghost : Ghost => ghost <| frightened := true |>) |>).
Proof.
  intros H. inv_frame H.
  - rewrite length_fmap. apply (inv_ghosts_len g H).
  - apply Forall_fmap. eapply Forall_impl; [exact (inv_ghosts g H)|]. done.
Qed.

Lemma eat_power_pill_Inv (E : Env) (p : Point) (g : Game) :
  Inv g -> Inv (eat_power_pill E p g).
Proof.
  intros H. unfold eat_power_pill. case_decide as Hp; [|exact H].
  match goal with |- context [fruit_spawn_triggers E (check_extra_life ?g0)] =>
    assert (H1 : Inv (fruit_spawn_triggers E (check_extra_life g0)))
      by (by apply fruit_spawn_triggers_Inv, check_extra_life_Inv, eaten_pill_Inv);
    generalize dependent (fruit_spawn_triggers E (check_extra_life g0))
  end.
  intros g1 H1. unfold time_time. apply frighten_Inv.
  eapply Inv_env_step; [exact H1|apply env_step_time].
Qed.

Lemma eat_fruit_Inv (p : Point) (g : Game) : Inv g -> Inv (eat_fruit p g).
Proof.
  intros H. unfold eat_fruit. destruct (fruit g); [|exact H].
  destruct (_ && _); [|exact H].
  apply check_extra_life_Inv. inv_frame H.
Qed.

Lemma check_win_Inv (g : Game) : Inv g -> is_Some (pacman g) -> Inv (check_win g).
Proof.
  intros H Hpm. unfold check_win. destruct (pellets_remaining g =? 0); [|exact H].
  inv_frame H. by intros _.
Qed.

Lemma warp_exit_Some (g : Game) (current_pos : Point) (dx0 : Z) (exit : Point) :
  warp_exit g current_pos dx0 = Some exit ->
  exists wl wr, warp_left g = Some wl /\ warp_right g = Some wr /\
    ((current_pos = wl /\ dx0 < 0 /\ exit = wr) \/
     (current_pos = wr /\ 0 < dx0 /\ exit = wl)).
Proof.
  unfold warp_exit. destruct (warp_left g) as [wl|]; [|discriminate].
  destruct (warp_right g) as [wr|]; [|discriminate].
  intros H. exists wl, wr. split; [done|]. split; [done|].
  destruct (bool_decide (current_pos = wl) && (dx0 <? 0)) eqn:Hl.
  - apply andb_true_iff in Hl as [Hc%bool_decide_eq_true Hd%Z.ltb_lt].
    injection H as <-. by left.
  - destruct (bool_decide (current_pos = wr) && (0 <? dx0)) eqn:Hr; [|discriminate].
    apply andb_true_iff in Hr as [Hc%bool_decide_eq_true Hd%Z.ltb_lt].
    injection H as <-. by right.
Qed.

(** A tunnel exit is an open cell of the maze. *)
Lemma warp_exit_open (g : Game) (current_pos : Point) (dx0 : Z) (exit : Point) :
  Inv g -> warp_exit g current_pos dx0 = Some exit -> open_at g exit.
Proof.
  intros H (wl & wr & Hwl & Hwr & [(_ & _ & ->)|(_ & _ & ->)])%warp_exit_Some;
    apply cell_blank_open; [by apply (inv_warp_right g H) | by apply (inv_warp_left g H)].
Qed.

Lemma turn_pacman_spec (g : Game) (pm : PacMan) :
  rect g ->
  exists pm', turn_pacman g pm = Ok pm' /\ y pm' = y pm /\ x pm' = x pm.
Proof.
  intros Hrect. unfold turn_pacman.
  destruct (negb (next_dy pm =? 0) || negb (next_dx pm =? 0)); [|by exists pm].
  rewrite is_valid_move_rect by done. simpl.
  destruct (is_open g _); eexists; (split; [reflexivity|]); done.
Qed.

Lemma advance_pacman_spec (g : Game) (pm : PacMan) :
  Inv g -> open_at g (y pm, x pm) ->
  exists how pm', advance_pacman g pm = Ok (how, pm') /\ open_at g (y pm', x pm').
Proof.
  intros H Hopen. unfold advance_pacman.
  destruct (negb (dy pm =? 0) || negb (dx pm =? 0)); [|by exists Next, pm].
  destruct (warp_exit g (y pm, x pm) (dx pm)) as [exit|] eqn:Hexit.
  - do 2 eexists. split; [reflexivity|]. simpl.
    destruct exit. by eapply warp_exit_open.
  - rewrite is_valid_move_rect by apply H. simpl.
    destruct (is_open g _) eqn:Hstep; do 2 eexists; (split; [reflexivity|]); simpl.
    + by apply open_cell_spec.
    + exact Hopen.
Qed.

Lemma Inv_set_pacman (g : Game) (pm : PacMan) (prev : option Point) :
  Inv g -> is_Some (pacman g) -> open_at g (y pm, x pm) ->
  Inv (g <| pacman := Some pm |> <| prev_pacman_pos := prev |>).
Proof.
  intros H Hsome Hopen. inv_frame H.
  - rewrite <- (inv_player g H). split; eauto.
  - by intros ? [= <-].
  - eauto.
Qed.

(** The pickup checks leave the player where it is. *)
Lemma check_extra_life_pacman (g : Game) : pacman (check_extra_life g) = pacman g.
Proof. unfold check_extra_life. by destruct (_ && _). Qed.

Lemma spawn_fruit_pacman (E : Env) (g : Game) : pacman (spawn_fruit E g) = pacman g.
Proof. unfold spawn_fruit. by destruct (initial_fruit g). Qed.

Lemma fruit_spawn_triggers_pacman (E : Env) (g : Game) :
  pacman (fruit_spawn_triggers E g) = pacman g.
Proof.
  unfold fruit_spawn_triggers.
  destruct (_ && _); [apply spawn_fruit_pacman|].
  destruct (_ && _); [apply spawn_fruit_pacman|done].
Qed.

Lemma eat_pellet_pacman (E : Env) (p : Point) (g : Game) :
  pacman (eat_pellet E p g) = pacman g.
Proof.
  unfold eat_pellet. case_decide; [|done].
  by rewrite fruit_spawn_triggers_pacman, check_extra_life_pacman.
Qed.

Lemma eat_power_pill_pacman (E : Env) (p : Point) (g : Game) :
  pacman (eat_power_pill E p g) = pacman g.
Proof.
  unfold eat_power_pill. case_decide; [|done]. unfold time_time. simpl.
  by rewrite fruit_spawn_triggers_pacman, check_extra_life_pacman.
Qed.

Lemma eat_fruit_pacman (p : Point) (g : Game) : pacman (eat_fruit p g) = pacman g.
Proof.
  unfold eat_fruit. destruct (fruit g); [|done]. destruct (_ && _); [|done].
  by rewrite check_extra_life_pacman.
Qed.

Lemma check_win_pacman (g : Game) : pacman (check_win g) = pacman g.
Proof. unfold check_win. by destruct (_ =? _). Qed.

Lemma pickup_pacman (E : Env) (p : Point) (g : Game) :
  pacman (pickup E p g) = pacman g.
Proof.
  unfold pickup.
  by rewrite check_win_pacman, eat_fruit_pacman, eat_power_pill_pacman, eat_pellet_pacman.
Qed.

Lemma pickup_Inv (E : Env) (p : Point) (g : Game) :
  Inv g -> is_Some (pacman g) -> Inv (pickup E p g).
Proof.
  intros H Hsome. unfold pickup. apply check_win_Inv.
  - by apply eat_fruit_Inv, eat_power_pill_Inv, eat_pellet_Inv.
  - by rewrite eat_fruit_pacman, eat_power_pill_pacman, eat_pellet_pacman.
Qed.

(** [move_pacman] returns normally and keeps the invariant. *)
Lemma move_pacman_Inv (E : Env) (g : Game) :
  Inv g -> returns (move_pacman E g) Inv.
Proof.
  intros H. unfold move_pacman.
  destruct (pacman g) as [pm|] eqn:Hpm; [|by apply returns_Ok].
  destruct (turn_pacman_spec g pm (inv_rect g H)) as (pm1 & -> & Hy & Hx). simpl.
  destruct (advance_pacman_spec g pm1 H) as (how & pm2 & -> & Hopen).
  { rewrite Hy, Hx. by apply (inv_pacman g H). }
  simpl.
  assert (Inv (g <| pacman := Some pm2 |> <| prev_pacman_pos := Some (y pm, x pm) |>)) as H2.
  { apply Inv_set_pacman; [done | by rewrite Hpm | done]. }
  destruct how; apply returns_Ok; [|exact H2].
  by apply pickup_Inv.
Qed.

(** ** The ghosts' moves keep the invariant *)

Lemma valid_among_rect (g : Game) (y0 x0 : Z) (ds : list (Z * Z)) :
  rect g ->
  exists l, valid_among g y0 x0 ds = Ok l /\
            Forall (fun d => open_at g (y0 + d.1, x0 + d.2)) l.
Proof.
  intros Hrect. induction ds as [|d ds (l & IH & Hl)]; simpl.
  - by exists [].
  - rewrite is_valid_move_rect by done. simpl. rewrite IH. simpl.
    destruct (is_open g _) eqn:Hd; eexists; (split; [reflexivity|]); [|done].
    constructor; [|done]. by apply open_cell_spec.
Qed.

Lemma get_valid_directions_rect (g : Game) (y0 x0 : Z) :
  rect g ->
  exists l, get_valid_directions g y0 x0 = Ok l /\
            Forall (fun d => open_at g (y0 + d.1, x0 + d.2)) l.
Proof. apply valid_among_rect. Qed.

Lemma is_junction_rect (g : Game) (y0 x0 : Z) :
  rect g -> exists b, is_junction g y0 x0 = Ok b.
Proof.
  intros Hrect. unfold is_junction.
  destruct (get_valid_directions_rect g y0 x0 Hrect) as (l & -> & _). by eexists.
Qed.

(** [random.choice] on a list that is not empty returns one of its
    elements. *)
Lemma random_choice_elem {A : Type} (E : Env) (l : list A) (g : Game) :
  l <> [] ->
  exists a, random_choice E l g = Ok (a, g <| choice_calls ::= S |>) /\ a ∈ l.
Proof.
  intros Hl. unfold random_choice.
  destruct (lookup_lt_is_Some_2 l (draw E (choice_calls g) mod length l)%nat) as [a Ha].
  { apply Nat.mod_upper_bound. by destruct l. }
  rewrite Ha. exists a. split; [done|]. by eapply list_elem_of_lookup_2.
Qed.

(** A ghost that only turned: same cell, same mood, and its velocity is
    the old one or taken from [directions]. *)
Definition turned (directions : list (Z * Z)) (ghost ghost' : Ghost) : Prop :=
  y ghost' = y ghost /\ x ghost' = x ghost /\ frightened ghost' = frightened ghost /\
  ((dy ghost', dx ghost') = (dy ghost, dx ghost) \/ (dy ghost', dx ghost') ∈ directions).

Lemma pick_direction_spec (E : Env) (directions : list (Z * Z)) (ghost : Ghost) (g : Game) :
  exists ghost' g', pick_direction E directions ghost g = Ok (ghost', g') /\
                    env_step g g' /\ turned directions ghost ghost'.
Proof.
  unfold pick_direction. destruct directions as [|d ds].
  - exists ghost, g. split; [done|]. split; [apply env_step_refl|]. by repeat split; try left.
  - destruct (random_choice_elem E (d :: ds) g) as (a & -> & Ha); [done|]. simpl.
    do 2 eexists. split; [done|]. split; [apply env_step_choice|].
    repeat split; try done. right. by destruct a.
Qed.

Lemma start_moving_spec (E : Env) (ghost : Ghost) (g : Game) :
  rect g ->
  exists ghost' g', start_moving E ghost g = Ok (ghost', g') /\
                    env_step g g' /\ y ghost' = y ghost /\ x ghost' = x ghost /\
                    frightened ghost' = frightened ghost.
Proof.
  intros Hrect. unfold start_moving.
  destruct ((dy ghost =? 0) && (dx ghost =? 0)).
  - destruct (get_valid_directions_rect g (y ghost) (x ghost) Hrect) as (l & -> & _). simpl.
    destruct (pick_direction_spec E l ghost g) as (ghost' & g' & -> & Hstep & Hy & Hx & Hf & _).
    by exists ghost', g'.
  - exists ghost, g. split; [done|]. split; [apply env_step_refl|]. done.
Qed.

Lemma junction_turn_spec (E : Env) (ghost : Ghost) (g : Game) :
  rect g ->
  exists ghost' g', junction_turn E ghost g = Ok (ghost', g') /\
                    env_step g g' /\ y ghost' = y ghost /\ x ghost' = x ghost /\
                    frightened ghost' = frightened ghost.
Proof.
  intros Hrect. unfold junction_turn.
  destruct (is_junction_rect g (y ghost) (x ghost) Hrect) as (b & ->). simpl.
  destruct b; [|exists ghost, g; split; [done|]; split; [apply env_step_refl|done]].
  unfold random_random. simpl.
  destruct (_ <? _)%float.
  - assert (Hrect' : rect (g <| random_calls ::= S |>)) by done.
    destruct (get_valid_directions_rect _ (y ghost) (x ghost) Hrect') as (l & -> & _). simpl.
    destruct l as [|d l].
    + do 2 eexists. split; [done|]. split; [apply env_step_random|done].
    + match goal with |- context [pick_direction E ?ds ghost ?g1] =>
        destruct (pick_direction_spec E ds ghost g1)
          as (ghost' & g' & -> & Hstep & Hy & Hx & Hf & _)
      end.
      exists ghost', g'. split; [done|].
      split; [eapply env_step_trans; [apply env_step_random|exact Hstep]|done].
  - do 2 eexists. split; [done|]. split; [apply env_step_random|done].
Qed.

(** ** Collisions keep the invariant *)

Lemma reset_ghost_spec (start : Point) (ghost : Ghost) :
  y (reset_ghost (Some start) ghost) = start.1 /\
  x (reset_ghost (Some start) ghost) = start.2 /\
  dy (reset_ghost (Some start) ghost) = 0 /\
  dx (reset_ghost (Some start) ghost) = 0 /\
  frightened (reset_ghost (Some start) ghost) = false.
Proof. done. Qed.

(** With a player on the board [reset_positions] returns normally, and this
    is the game it returns. *)
Lemma reset_positions_eq (g : Game) (pm : PacMan) (start : Point) :
  pacman g = Some pm -> pacman_start g = Some start ->
  reset_positions g =
  Ok (g <| prev_pacman_pos := Some (y pm, x pm) |>
        <| pacman := Some {| pacman_base := new_GameObject start.1 start.2;
                             next_dy := 0; next_dx := 0 |} |>
        <| prev_ghost_positions :=
             imap (fun i old => match (ghosts g !! i : option Ghost) with
                                | Some ghost => Some (y ghost, x ghost)
                                | None => old
                                end) (prev_ghost_positions g) |>
        <| ghosts := imap (fun i ghost => reset_ghost (ghost_starts g !! i) ghost) (ghosts g) |>
        <| power_mode_time := 0%float |>).
Proof. intros Hpm Hstart. unfold reset_positions. by rewrite Hpm, Hstart. Qed.

(** The game [reset_positions] returns, as a function of the player and
    its start. *)
Definition after_reset (pm : PacMan) (start : Point) (g : Game) : Game :=
  g <| prev_pacman_pos := Some (y pm, x pm) |>
    <| pacman := Some {| pacman_base := new_GameObject start.1 start.2;
                         next_dy := 0; next_dx := 0 |} |>
    <| prev_ghost_positions :=
         imap (fun i old => match (ghosts g !! i : option Ghost) with
                            | Some ghost => Some (y ghost, x ghost)
                            | None => old
                            end) (prev_ghost_positions g) |>
    <| ghosts := imap (fun i ghost => reset_ghost (ghost_starts g !! i) ghost) (ghosts g) |>
    <| power_mode_time := 0%float |>.

Lemma after_reset_Inv (pm : PacMan) (start : Point) (g : Game) :
  Inv g -> pacman_start g = Some start -> Inv (after_reset pm start g).
Proof.
  intros H Hstart. unfold after_reset.
  pose proof (inv_pacman_start g H start Hstart) as Hcell.
  inv_frame H.
  - rewrite Hstart. split; eauto.
  - intros ? [= <-]. simpl. apply cell_blank_open. by destruct start.
  - rewrite length_imap. apply (inv_ghosts_len g H).
  - apply Forall_lookup_2. intros i ghost. rewrite list_lookup_imap.
    destruct (ghosts g !! i) as [ghost0|] eqn:Hi; simpl; [|done]. intros [= <-].
    destruct (lookup_lt_is_Some_2 (ghost_starts g) i) as [s Hs].
    { rewrite <- (inv_ghosts_len g H). by eapply lookup_lt_Some. }
    rewrite Hs. simpl. apply cell_blank_open.
    destruct s. by eapply (Forall_lookup_1 _ _ _ _ (inv_ghost_starts g H) Hs).
  - eauto.
Qed.

Lemma reset_positions_Inv (g : Game) :
  Inv g -> is_Some (pacman g) -> returns (reset_positions g) Inv.
Proof.
  intros H [pm Hpm].
  destruct (proj1 (inv_player g H)) as [start Hstart]; [by rewrite Hpm|].
  rewrite (reset_positions_eq g pm start Hpm Hstart). apply returns_Ok.
  by apply (after_reset_Inv pm start g).
Qed.

Lemma Inv_put_ghost (i : nat) (ghost : Ghost) (g : Game) :
  Inv g -> open_at g (y ghost, x ghost) -> Inv (put_ghost i ghost g).
Proof.
  intros H Hopen. unfold put_ghost. inv_frame H.
  - rewrite length_insert. apply (inv_ghosts_len g H).
  - apply Forall_insert; [exact (inv_ghosts g H)|done].
Qed.

Lemma Inv_record_prev (i : nat) (old : Point) (g : Game) :
  Inv g -> Inv (record_prev i old g).
Proof. intros H. unfold record_prev. inv_frame H. Qed.

(** The game after the player ate the frightened ghost at index [i]. *)
Definition after_eaten (i : nat) (ghost : Ghost) (g : Game) : Game :=
  let g := g <| score ::= (fun n => n + 200) |> in
  match ghost_starts g !! i with
  | Some start =>
      g <| prev_ghost_positions ::= <[i := Some (y ghost, x ghost)]> |>
        <| ghosts ::= <[i := {| ghost_base := new_GameObject start.1 start.2;
                                frightened := false |}]> |>
  | None =>
      g <| ghosts ::= <[i := ghost <| frightened := false |>
                                   <| ghost_base ::= set_velocity (0, 0) |>]> |>
  end.

Lemma handle_collision_frightened (i : nat) (ghost : Ghost) (g : Game) :
  frightened ghost = true -> handle_collision i ghost g = Ok (after_eaten i ghost g).
Proof.
  intros Hf. unfold handle_collision, after_eaten. rewrite Hf. simpl.
  by destruct (ghost_starts g !! i).
Qed.

Lemma after_eaten_Inv (i : nat) (ghost : Ghost) (g : Game) :
  Inv g -> open_at g (y ghost, x ghost) -> Inv (after_eaten i ghost g).
Proof.
  intros H Hopen. unfold after_eaten. simpl.
  destruct (ghost_starts g !! i) as [start|] eqn:Hstart.
  - pose proof (Forall_lookup_1 _ _ _ _ (inv_ghost_starts g H) Hstart) as Hcell.
    inv_frame H.
    + rewrite length_insert. apply (inv_ghosts_len g H).
    + apply Forall_insert; [exact (inv_ghosts g H)|]. simpl.
      apply cell_blank_open. by destruct start.
  - inv_frame H.
    + rewrite length_insert. apply (inv_ghosts_len g H).
    + apply Forall_insert; [exact (inv_ghosts g H)|done].
Qed.

Lemma last_life_Inv (g : Game) :
  Inv g -> is_Some (pacman g) ->
  Inv (g <| lives ::= (fun n => n - 1) |> <| game_over := true |>).
Proof. intros H Hpm. inv_frame H; [by intros _|done]. Qed.

Lemma lost_life_Inv (g : Game) :
  Inv g -> 1 < lives g -> Inv (g <| lives ::= (fun n => n - 1) |>).
Proof. intros H Hl. inv_frame H. intros _. lia. Qed.

(** What no ghost and no collision touches: the collectibles and their
    counters, the bonus item, the level and the maze. *)
Definition steady (g : Game) :=
  (pellets g, power_pills g, pellets_remaining g, dots_eaten g,
   (fruit g, fruit_active g, fruit_spawn_time g, fruit_triggered_70 g, fruit_triggered_170 g),
   (won g, level g, speed g, extra_life_awarded g),
   (initial_pellets g, initial_power_pills g, initial_fruit g),
   (warp_left g, warp_right g, pacman_start g, ghost_starts g),
   (original_map g, height g, width g)).

(** [g] satisfies the invariant and agrees with [g0] on what is steady. *)
Definition kept (g0 g : Game) : Prop := Inv g /\ steady g = steady g0.

Lemma kept_refl (g : Game) : Inv g -> kept g g.
Proof. by split. Qed.

Lemma kept_trans (g0 g1 g2 : Game) : kept g0 g1 -> kept g1 g2 -> kept g0 g2.
Proof. intros [_ H1] [H2 H3]. split; [done|congruence]. Qed.

Lemma kept_env_step (g g' : Game) : Inv g -> env_step g g' -> kept g g'.
Proof.
  intros H Hstep. split; [by eapply Inv_env_step|].
  by destruct Hstep as (t & r & c & ->).
Qed.

Lemma kept_put_ghost (i : nat) (ghost : Ghost) (g : Game) :
  Inv g -> open_at g (y ghost, x ghost) -> kept g (put_ghost i ghost g).
Proof. intros H Hopen. split; [by apply Inv_put_ghost|done]. Qed.

Lemma kept_record_prev (i : nat) (old : Point) (g : Game) :
  Inv g -> kept g (record_prev i old g).
Proof. intros H. split; [by apply Inv_record_prev|done]. Qed.

Lemma after_eaten_steady (i : nat) (ghost : Ghost) (g : Game) :
  steady (after_eaten i ghost g) = steady g.
Proof. unfold after_eaten. simpl. by destruct (ghost_starts g !! i). Qed.

(** [returns] through a result that is kept. *)
Lemma returns_kept_trans {A : Type} (m : Result A) (f : A -> Game) (g0 g1 : Game) :
  kept g0 g1 -> returns m (fun a => kept g1 (f a)) -> returns m (fun a => kept g0 (f a)).
Proof. intros H01 Hm. eapply returns_weaken; [exact Hm|]. intros a. by apply kept_trans. Qed.

Lemma reset_positions_kept (g : Game) :
  Inv g -> is_Some (pacman g) ->
  returns (reset_positions g)
          (fun g' => kept g g' /\ score g' = score g /\ lives g' = lives g /\
                     game_over g' = game_over g).
Proof.
  intros H [pm Hpm].
  destruct (proj1 (inv_player g H)) as [start Hstart]; [by rewrite Hpm|].
  rewrite (reset_positions_eq g pm start Hpm Hstart). apply returns_Ok.
  split; [|done]. split; [by apply (after_reset_Inv pm start g)|done].
Qed.

Lemma handle_collision_kept (i : nat) (ghost : Ghost) (g : Game) :
  Inv g -> is_Some (pacman g) -> open_at g (y ghost, x ghost) ->
  returns (handle_collision i ghost g) (kept g).
Proof.
  intros H Hpm Hopen.
  destruct (frightened ghost) eqn:Hf.
  - rewrite handle_collision_frightened by done. apply returns_Ok.
    split; [by apply after_eaten_Inv|apply after_eaten_steady].
  - unfold handle_collision. rewrite Hf.
    destruct (0 <? lives g) eqn:Hlives; [|by apply returns_Ok, kept_refl].
    simpl. destruct (lives g - 1 <=? 0) eqn:Hlast.
    + apply returns_Ok. split; [by apply last_life_Inv|done].
    + apply Z.leb_gt in Hlast.
      assert (H1 : kept g (g <| lives ::= (fun n => n - 1) |>)).
      { split; [apply lost_life_Inv; [done|lia]|done]. }
      eapply returns_weaken; [apply reset_positions_kept; [apply H1|done]|].
      intros g' [Hk _]. exact (kept_trans _ _ _ H1 Hk).
Qed.

Lemma handle_collision_Inv (i : nat) (ghost : Ghost) (g : Game) :
  Inv g -> is_Some (pacman g) -> open_at g (y ghost, x ghost) ->
  returns (handle_collision i ghost g) Inv.
Proof.
  intros H Hpm Hopen. eapply returns_weaken; [by apply handle_collision_kept|].
  by intros g' [H' _].
Qed.

Lemma check_crossing_player (g : Game) (ghost : Ghost) (old_y old_x : Z) :
  check_ghost_collision_with_crossing g ghost old_y old_x = true -> is_Some (pacman g).
Proof. unfold check_ghost_collision_with_crossing. destruct (pacman g); [eauto|done]. Qed.

Lemma collide_kept (i : nat) (ghost : Ghost) (old_y old_x : Z) (g : Game) :
  Inv g -> open_at g (y ghost, x ghost) ->
  returns (collide i ghost old_y old_x g) (fun r => kept g r.2).
Proof.
  intros H Hopen. unfold collide.
  destruct (check_ghost_collision_with_crossing g ghost old_y old_x) eqn:Hhit;
    [|by apply returns_Ok, kept_refl].
  apply returns_bind.
  eapply returns_weaken; [apply handle_collision_kept; eauto using check_crossing_player|].
  intros g' H'. by apply returns_Ok.
Qed.

Lemma ghost_move_kept (E : Env) (i : nat) (ghost : Ghost) (old_y old_x : Z) (g : Game) :
  Inv g -> open_at g (y ghost, x ghost) ->
  returns (ghost_move E i ghost old_y old_x g) (fun r => kept g r.2).
Proof.
  intros H2 Hopen2. unfold ghost_move.
  destruct (warp_exit g (y ghost, x ghost) (dx ghost)) as [exit|] eqn:Hexit.
  - assert (Hexit_open : open_at g (exit.1, exit.2)).
    { destruct exit. by eapply warp_exit_open. }
    set (ghost' := ghost <| ghost_base ::= move_to exit |>).
    assert (Hk : kept g (record_prev i (old_y, old_x) (put_ghost i ghost' g))).
    { eapply kept_trans; [by apply (kept_put_ghost i ghost')|].
      by apply kept_record_prev, Inv_put_ghost. }
    apply (returns_kept_trans _ snd _ _ Hk). apply collide_kept; [apply Hk|exact Hexit_open].
  - rewrite is_valid_move_rect by apply H2. simpl.
    destruct (is_open g _) eqn:Hstep.
    + apply open_cell_spec in Hstep. apply returns_bind.
      set (ghost' := ghost <| ghost_base ::= move_to (y ghost + dy ghost, x ghost + dx ghost) |>).
      assert (Hk : kept g (put_ghost i ghost' g)) by (by apply kept_put_ghost).
      eapply returns_weaken; [apply collide_kept; [apply Hk|exact Hstep]|].
      intros [how g3] H3. simpl in H3.
      assert (Hk3 : kept g g3) by exact (kept_trans _ _ _ Hk H3).
      destruct how; apply returns_Ok; simpl; [|done].
      eapply kept_trans; [exact Hk3|]. apply kept_record_prev, Hk3.
    + destruct (get_valid_directions_rect g (y ghost) (x ghost) (inv_rect g H2))
        as (l & -> & _). simpl.
      destruct (pick_direction_spec E l ghost g)
        as (ghost3 & g3 & -> & Hstep3 & Hy3 & Hx3 & _). simpl.
      apply returns_Ok. simpl.
      assert (Hk3 : kept g g3) by (by apply kept_env_step).
      assert (Hopen3 : open_at g3 (y ghost3, x ghost3)).
      { rewrite Hy3, Hx3. destruct Hstep3 as (? & ? & ? & ->). exact Hopen2. }
      eapply kept_trans; [exact Hk3|].
      eapply kept_trans; [apply (kept_put_ghost i ghost3); [apply Hk3|exact Hopen3]|].
      apply kept_record_prev, Inv_put_ghost; [apply Hk3|exact Hopen3].
Qed.

Lemma ghost_turn_kept (E : Env) (i : nat) (ghost : Ghost) (g : Game) :
  Inv g -> open_at g (y ghost, x ghost) ->
  returns (ghost_turn E i ghost g) (fun r => kept g r.2).
Proof.
  intros H Hopen. unfold ghost_turn.
  destruct (start_moving_spec E ghost g (inv_rect g H))
    as (ghost1 & g1 & -> & Hstep1 & Hy1 & Hx1 & _). simpl.
  pose proof (kept_env_step g g1 H Hstep1) as Hk1.
  destruct (junction_turn_spec E ghost1 g1 (inv_rect g1 (proj1 Hk1)))
    as (ghost2 & g2 & -> & Hstep2 & Hy2 & Hx2 & _). simpl.
  pose proof (kept_env_step g1 g2 (proj1 Hk1) Hstep2) as Hk2.
  assert (Hopen2 : open_at g2 (y ghost2, x ghost2)).
  { rewrite Hy2, Hx2, Hy1, Hx1.
    destruct Hstep1 as (? & ? & ? & ->), Hstep2 as (? & ? & ? & ->). exact Hopen. }
  apply (returns_kept_trans _ snd _ _ (kept_trans _ _ _ Hk1 Hk2)).
  apply ghost_move_kept; [apply Hk2|exact Hopen2].
Qed.

Lemma ghosts_loop_kept (E : Env) (indices : list nat) :
  forall g, Inv g -> returns (ghosts_loop E indices g) (kept g).
Proof.
  induction indices as [|i rest IH]; intros g H; simpl; [by apply returns_Ok, kept_refl|].
  destruct (ghosts g !! i) as [ghost|] eqn:Hi; [|by apply returns_Ok, kept_refl].
  apply returns_bind.
  eapply returns_weaken.
  { apply ghost_turn_kept; [done|]. by eapply (Forall_lookup_1 _ _ _ _ (inv_ghosts g H) Hi). }
  intros [how g'] H'. simpl in H'. destruct how; [|by apply returns_Ok].
  apply (returns_kept_trans _ id _ _ H'). apply IH, H'.
Qed.

(** The start of [move_ghosts]: the end of the power mode. *)
Lemma power_mode_expiry_kept (b : bool) (g : Game) :
  Inv g ->
  kept g (if b then g <| power_mode_time := 0%float |>
                     <| ghosts ::= fmap (fun ghost : Ghost => ghost <| frightened := false |>) |>
          else g).
Proof.
  intros H. destruct b; [|by apply kept_refl]. split; [|done].
  inv_frame H.
  - rewrite length_fmap. apply (inv_ghosts_len g H).
  - apply Forall_fmap. eapply Forall_impl; [exact (inv_ghosts g H)|]. done.
Qed.

(** [move_ghosts] returns normally and keeps the invariant; of what is
    steady it changes only what [update_fruit] changes. *)
Lemma move_ghosts_kept (E : Env) (g : Game) :
  Inv g ->
  returns (move_ghosts E g)
          (fun g' => exists g1, kept g g1 /\ time_calls g1 = S (time_calls g) /\
                                kept (update_fruit E g1) g').
Proof.
  intros H. unfold move_ghosts, time_time.
  assert (H0 : kept g (g <| time_calls ::= S |>))
    by (apply kept_env_step; [exact H|apply env_step_time]).
  cbv beta iota zeta.
  match goal with |- context [update_fruit E ?g1] =>
    assert (H1 : kept g g1 /\ time_calls g1 = S (time_calls g));
    [|generalize dependent g1]
  end.
  { split.
    - eapply kept_trans; [exact H0|]. apply power_mode_expiry_kept, H0.
    - by destruct (_ && _). }
  intros g1 [H1 Ht].
  eapply returns_weaken; [apply ghosts_loop_kept, update_fruit_Inv, H1|].
  intros g' Hk. by exists g1.
Qed.

Lemma move_ghosts_Inv (E : Env) (g : Game) : Inv g -> returns (move_ghosts E g) Inv.
Proof.
  intros H. eapply returns_weaken; [by apply move_ghosts_kept|].
  by intros g' (g1 & _ & _ & [H' _]).
Qed.

(** [check_collisions] returns normally and keeps the invariant. *)
Lemma check_collisions_kept (g : Game) : Inv g -> returns (check_collisions g) (kept g).
Proof.
  intros H. unfold check_collisions.
  destruct (pacman g) as [pm|] eqn:Hpm; [|by apply returns_Ok, kept_refl].
  destruct (list_find _ (ghosts g)) as [[i ghost]|] eqn:Hfind; [|by apply returns_Ok, kept_refl].
  apply list_find_Some in Hfind as (Hi & _ & _).
  apply handle_collision_kept; [done|by rewrite Hpm|].
  by eapply (Forall_lookup_1 _ _ _ _ (inv_ghosts g H) Hi).
Qed.

Lemma check_collisions_Inv (g : Game) : Inv g -> returns (check_collisions g) Inv.
Proof.
  intros H. eapply returns_weaken; [by apply check_collisions_kept|]. by intros g' [H' _].
Qed.

(** A tick returns normally and keeps the invariant. *)
Lemma tick_Inv (E : Env) (g : Game) : Inv g -> returns (tick E g) Inv.
Proof.
  intros H. unfold tick.
  apply returns_bind. eapply returns_weaken; [by apply move_pacman_Inv|].
  intros g1 H1. apply returns_bind. eapply returns_weaken; [by apply move_ghosts_Inv|].
  intros g2 H2. by apply check_collisions_Inv.
Qed.

(** ** Levels, reset and the main loop keep the invariant *)

Lemma speed_levels_lower (v : float) :
  In v speed_levels -> In (py_max 0.08 (v - 0.01)) speed_levels.
Proof.
  unfold speed_levels. simpl.
  intros H. repeat (destruct H as [<-|H]; [vm_compute; tauto|]). destruct H.
Qed.

(** The intervals are at or above the floor, and [next_level] lowers every
    interval but the floor itself. *)
Lemma speed_levels_floor (v : float) :
  In v speed_levels ->
  (0.08 <=? v)%float = true /\
  (py_max 0.08 (v - 0.01) <=? v)%float = true /\
  (0.08 <=? py_max 0.08 (v - 0.01))%float = true /\
  ((0.08 <? v)%float = true -> (py_max 0.08 (v - 0.01) <? v)%float = true).
Proof.
  unfold speed_levels. simpl.
  intros H. repeat (destruct H as [<-|H]; [vm_compute; tauto|]). destruct H.
Qed.

Lemma next_level_Inv (g : Game) :
  Inv g -> is_Some (pacman g) -> returns (next_level g) Inv.
Proof.
  intros H Hpm. unfold next_level. apply returns_bind.
  eapply returns_weaken.
  - simpl. apply reset_positions_Inv; [|destruct (initial_fruit g); exact Hpm].
    destruct (initial_fruit g) as [f|] eqn:Hf; inv_frame H;
      try done; try (intros _; exact Hpm).
  - intros g' H'. apply returns_Ok. inv_frame H'.
    apply speed_levels_lower, (inv_speed g' H').
Qed.

Lemma reset_game_Inv (g : Game) :
  Inv g -> is_Some (pacman g) -> returns (reset_game g) Inv.
Proof.
  intros H Hpm. unfold reset_game. simpl.
  apply reset_positions_Inv; [|destruct (initial_fruit g); exact Hpm].
  destruct (initial_fruit g) as [f|] eqn:Hf; inv_frame H;
    try done; try (intros _; exact Hpm); try (intros _; lia);
    exact speed_levels_first.
Qed.

Lemma set_next_Inv (a b : Z) (g g' : Game) :
  Inv g -> set_next a b g = Ok g' -> Inv g'.
Proof.
  intros H. unfold set_next. destruct (pacman g) as [pm|] eqn:Hpm; [|done].
  intros [= <-]. inv_frame H.
  - rewrite <- (inv_player g H), Hpm. split; eauto.
  - intros ? [= <-]. simpl. by apply (inv_pacman g H).
  - eauto.
Qed.

(** The arrow keys, which [run] answers by assigning to [self.pacman]. *)
Definition is_arrow (key : Key) : bool :=
  match key with
  | KEY_UP | KEY_DOWN | KEY_LEFT | KEY_RIGHT => true
  | _ => false
  end.

(** With a player on the board, or for a key that is no arrow,
    [handle_input] returns normally; it keeps the invariant. *)
Lemma handle_input_Inv (E : Env) (key : Key) (st : Loop) :
  Inv (self st) -> is_Some (pacman (self st)) \/ is_arrow key = false ->
  returns (handle_input E key st) (fun st' => Inv (self st')).
Proof.
  intros H Hkey. unfold handle_input.
  assert (Hterm : game_over (self st) || won (self st) = true -> is_Some (pacman (self st))).
  { intros [Ho|Hw]%orb_true_iff; apply (inv_terminal _ H); auto. }
  assert (Harrow : forall a b, is_arrow key = true ->
            returns (let* g := set_next a b (self st) in Ok (st <| self := g |>))
                    (fun st' => Inv (self st'))).
  { intros a b Hk. destruct Hkey as [[pm Hpm]|Hno]; [|congruence].
    apply returns_bind. unfold set_next. rewrite Hpm. apply returns_Ok, returns_Ok. simpl.
    eapply set_next_Inv; [exact H|]. unfold set_next. by rewrite Hpm. }
  destruct key; simpl;
    try (destruct (negb (game_over (self st)) && negb (won (self st)));
         [by (apply Harrow) || by apply returns_Ok | by apply returns_Ok]).
  - destruct (game_over (self st) || won (self st)) eqn:Hend; [|by apply returns_Ok].
    apply returns_bind. eapply returns_weaken; [apply reset_game_Inv; auto|].
    intros g' H'. apply returns_Ok. simpl. eapply Inv_env_step; [exact H'|apply env_step_time].
  - destruct (won (self st)) eqn:Hwon; [|by apply returns_Ok].
    apply returns_bind. eapply returns_weaken.
    { apply next_level_Inv; [done|]. apply (inv_terminal _ H). by left. }
    intros g' H'. apply returns_Ok. simpl. eapply Inv_env_step; [exact H'|apply env_step_time].
Qed.

Lemma update_game_Inv (E : Env) (current_time : float) (st : Loop) :
  Inv (self st) -> returns (update_game E current_time st) (fun st' => Inv (self st')).
Proof.
  intros H. unfold update_game.
  destruct (negb _ && negb _); [|by apply returns_Ok].
  destruct (_ <=? _)%float; [|by apply returns_Ok].
  apply returns_bind. eapply returns_weaken; [by apply tick_Inv|].
  intros g' H'. by apply returns_Ok.
Qed.

(** One iteration of [run] returns normally under the same condition, and
    keeps the invariant. *)
Lemma run_iteration_Inv (E : Env) (key : Key) (st : Loop) :
  Inv (self st) -> is_Some (pacman (self st)) \/ is_arrow key = false ->
  returns (run_iteration E key st)
          (fun r => forall st', r = Some st' -> Inv (self st')).
Proof.
  intros H Hkey. unfold run_iteration, time_time.
  set (st0 := st <| self := (self st) <| time_calls ::= S |> |>).
  assert (H0 : Inv (self st0)).
  { simpl. eapply Inv_env_step; [exact H|apply env_step_time]. }
  assert (Hrest : returns (let* st1 := handle_input E key st0 in
                           let* st2 := update_game E (clock E (time_calls (self st))) st1 in
                           Ok (Some st2))
                          (fun r => forall st', r = Some st' -> Inv (self st'))).
  { apply returns_bind. eapply returns_weaken; [by apply handle_input_Inv|].
    intros st1 H1. apply returns_bind.
    eapply returns_weaken; [by apply update_game_Inv|].
    intros st2 H2. apply returns_Ok. by intros ? [= <-]. }
  destruct key; try exact Hrest. by apply returns_Ok.
Qed.

(** [run] before its loop: [last_move_time = time.time()]. *)
Definition run_start (E : Env) (file : option (list string)) : Loop :=
  let '(t, g) := time_time E (Game_init file) in
  {| self := g; last_move_time := t |}.

(** The states the loop of [run] goes through, for the maze file [file]
    and any sequence of keys. *)
Inductive reachable (E : Env) (file : option (list string)) : Loop -> Prop :=
| reach_start : reachable E file (run_start E file)
| reach_step (key : Key) (st st' : Loop) :
    reachable E file st ->
    run_iteration E key st = Ok (Some st') ->
    reachable E file st'.

Lemma run_iteration_arrow_player (E : Env) (key : Key) (st st' : Loop) :
  Inv (self st) -> run_iteration E key st = Ok (Some st') ->
  is_Some (pacman (self st)) \/ is_arrow key = false.
Proof.
  intros H Hrun. destruct (pacman (self st)) as [pm|] eqn:Hpm; [left; eauto|right].
  destruct (is_arrow key) eqn:Hk; [|done]. exfalso.
  assert (Hplay : game_over (self st) = false /\ won (self st) = false).
  { destruct (game_over (self st)) eqn:Ho, (won (self st)) eqn:Hw; try done;
      destruct (inv_terminal _ H) as [? ?]; auto; congruence. }
  destruct Hplay as [Ho Hw].
  unfold run_iteration, time_time, handle_input, set_next in Hrun.
  destruct key; try discriminate Hk; simpl in Hrun; rewrite Ho, Hw, Hpm in Hrun;
    discriminate Hrun.
Qed.

(** Every state of the loop satisfies the invariant. *)
Lemma reachable_Inv (E : Env) (file : option (list string)) (st : Loop) :
  reachable E file st -> Inv (self st).
Proof.
  induction 1 as [|key st st' _ IH Hrun].
  - unfold run_start, time_time. simpl.
    eapply Inv_env_step; [apply Game_init_Inv|apply env_step_time].
  - destruct (run_iteration_Inv E key st IH) as (r & Hr & Hinv).
    { by eapply run_iteration_arrow_player. }
    rewrite Hrun in Hr. injection Hr as <-. by apply Hinv.
Qed.

(** ** Example worlds *)

(** A clock that advances one second per reading, a random source that
    always turns at a junction and always draws the first candidate. *)
Definition steady_env : Env :=
  {| clock := fun n => PrimFloat.of_uint63 (Uint63.of_Z (Z.of_nat n));
     uniform := fun _ => 0%float;
     draw := fun _ => 0%nat |}.

(** A small maze with every kind of cell. *)
Definition small_maze : option (list string) :=
  Some ["#######"; "#c.o.n#"; "#<.@.>#"; "#######"]%string.

(** ** The claims *)

(** [pellets_remaining] is the number of pellets plus the number of power
    pills. *)
Definition counts (g : Game) : Prop :=
  pellets_remaining g = Z.of_nat (size (pellets g)) + Z.of_nat (size (power_pills g)).

(** The player and every ghost stand on a cell inside the maze that is not
    a wall. *)
Definition agents_on_open (g : Game) : Prop :=
  (forall pm : PacMan, pacman g = Some pm -> open_at g (y pm, x pm)) /\
  Forall (fun ghost : Ghost => open_at g (y ghost, x ghost)) (ghosts g).

Lemma Inv_counts (g : Game) : Inv g -> counts g.
Proof. apply inv_remaining. Qed.

Lemma Inv_agents_on_open (g : Game) : Inv g -> agents_on_open g.
Proof. intros H. split; [apply (inv_pacman g H)|apply (inv_ghosts g H)]. Qed.

Lemma Inv_terminal_player (g : Game) :
  Inv g -> won g = true \/ game_over g = true -> is_Some (pacman g).
Proof. apply inv_terminal. Qed.

(** C4. In every state the loop of [run] goes through (after loading, and
    after every iteration, whatever it did), [pellets_remaining] equals the
    size of [pellets] plus the size of [power_pills]; from such a state a
    tick, a level advance (in the won state) and a full reset (in the won or
    lost state) return normally, in a state where the equation holds again;
    and it holds of the game [Game_init] builds from any maze file. *)
Theorem pellets_remaining_counts (E : Env) (file : option (list string)) (st : Loop) :
  reachable E file st ->
  counts (self st) /\
  returns (tick E (self st)) counts /\
  (won (self st) = true -> returns (next_level (self st)) counts) /\
  (won (self st) = true \/ game_over (self st) = true ->
   returns (reset_game (self st)) counts) /\
  counts (Game_init file).
Proof.
  intros Hreach. pose proof (reachable_Inv E file st Hreach) as H.
  split; [by apply Inv_counts|].
  split; [eapply returns_weaken; [by apply tick_Inv|apply Inv_counts]|].
  split.
  { intros Hwon. eapply returns_weaken; [|apply Inv_counts].
    apply next_level_Inv; [done|]. apply Inv_terminal_player; auto. }
  split.
  { intros Hend. eapply returns_weaken; [|apply Inv_counts].
    apply reset_game_Inv; [done|]. by apply Inv_terminal_player. }
  apply Inv_counts, Game_init_Inv.
Qed.

Lemma pellets_remaining_counts_witness :
  reachable steady_env small_maze (run_start steady_env small_maze) /\
  counts (self (run_start steady_env small_maze)).
Proof.
  split; [apply reach_start|].
  exact (proj1 (pellets_remaining_counts steady_env small_maze _
                  (reach_start steady_env small_maze))).
Defined.

(** C10. After initialization and after every tick, in every state the
    loop of [run] goes through, the player and every ghost stand inside the
    maze on a cell that is not a wall; so do the two tunnel endpoints and
    the recorded start positions that warps and resets move agents to. *)
Theorem agents_stay_on_open_cells (E : Env) (file : option (list string)) (st : Loop) :
  reachable E file st ->
  agents_on_open (Game_init file) /\
  agents_on_open (self st) /\
  returns (tick E (self st)) agents_on_open /\
  (forall p, warp_left (self st) = Some p -> open_at (self st) p) /\
  (forall p, warp_right (self st) = Some p -> open_at (self st) p) /\
  (forall p, pacman_start (self st) = Some p -> open_at (self st) p) /\
  Forall (fun p => open_at (self st) p) (ghost_starts (self st)).
Proof.
  intros Hreach. pose proof (reachable_Inv E file st Hreach) as H.
  split; [apply Inv_agents_on_open, Game_init_Inv|].
  split; [by apply Inv_agents_on_open|].
  split; [eapply returns_weaken; [by apply tick_Inv|apply Inv_agents_on_open]|].
  split; [intros p Hp; by apply cell_blank_open, (inv_warp_left _ H)|].
  split; [intros p Hp; by apply cell_blank_open, (inv_warp_right _ H)|].
  split; [intros p Hp; by apply cell_blank_open, (inv_pacman_start _ H)|].
  eapply Forall_impl; [exact (inv_ghost_starts _ H)|].
  intros p Hp. by apply cell_blank_open.
Qed.

Lemma agents_stay_on_open_cells_witness :
  reachable steady_env small_maze (run_start steady_env small_maze) /\
  agents_on_open (self (run_start steady_env small_maze)).
Proof.
  split; [apply reach_start|].
  exact (proj1 (proj2 (agents_stay_on_open_cells steady_env small_maze _
                         (reach_start steady_env small_maze)))).
Defined.
